(** * The proposer layer of avalanchego: windower and pre-fork block lineage

    A shallow embedding of [vms/proposervm/proposer/windower.go] and
    [vms/proposervm/pre_fork_block.go], and the properties of the
    specification proved (or refuted) on it. *)

From Stdlib Require Import ZArith Lia.
From stdpp Require Import gmap list sorting strings.

Local Open Scope Z_scope.

(** ** Go values shared by both packages *)

(** Go's [error] values that the two files name, plus the errors that come
    out of collaborators ([errExternal], told apart by their message). *)
Inductive error : Type :=
  | errOverflow                (* utils/math *)
  | errPChainHeightTooLow
  | errPChainHeightNotReached
  | errInnerParentMismatch
  | errProposersNotActivated
  | errTimeNotMonotonic
  | errTimeTooAdvanced
  | errUnexpectedBlockType
  | ErrNotFound                (* database.ErrNotFound *)
  | errExternal (msg : string).

Global Instance error_eq_dec : EqDecision error.
Proof. solve_decision. Defined.

Definition MaxUint64 : Z := 2 ^ 64 - 1.
Definition MaxInt64 : Z := 2 ^ 63 - 1.

(** Conversion to a signed 64-bit integer ([int64], and [int] on the 64-bit
    platforms the node runs on): two's complement wrap-around. *)
Definition to_int64 (z : Z) : Z := (z + 2 ^ 63) mod 2 ^ 64 - 2 ^ 63.

(** [ids.ShortID] is a [20]byte array and [ids.ID] a [32]byte array; both are
    held as the big-endian number of their bytes, on which [bytes.Compare] is
    the numeric order and [==] is equality. *)
Abbreviation ShortID := Z (only parsing).
Abbreviation ID := Z (only parsing).

(** [time.Duration] is an [int64] count of nanoseconds. *)
Definition Second : Z := 1000000000.

Fixpoint sumZ (l : list Z) : Z :=
  match l with
  | [] => 0
  | x :: l => x + sumZ l
  end.

(** * vms/proposervm/proposer/windower.go *)
Module Windower.

Definition maxWindows : Z := 5.
Definition windowDuration : Z := 3 * Second.

(** Modelled from the spec: [math.Add64] of utils/math, the overflow-checked
    addition of two [uint64]; the file is not part of the sources at hand. *)
Definition Add64 (a b : Z) : error + Z :=
  if decide (a > MaxUint64 - b) then inl errOverflow else inr (a + b).

Record validatorData : Type := { id : ShortID; weight : Z }.

Global Instance validatorData_eq_dec : EqDecision validatorData.
Proof. solve_decision. Defined.

Definition toData (kv : ShortID * Z) : validatorData :=
  {| id := kv.1; weight := kv.2 |}.

(** Modelled from the spec: [validatorsSlice] and its [Less], declared in a
    file that is not part of the sources at hand: the sequence is ordered
    ascending by identity. [sort.Sort] is any sort for that order: the keys
    of a map are distinct, so all of them give the same sequence. *)
Definition validatorLe (a b : validatorData) : Prop := id a ≤ id b.

Global Instance validatorLe_dec a b : Decision (validatorLe a b).
Proof. unfold validatorLe. apply _. Defined.

Definition sortValidators (validators : list validatorData) : list validatorData :=
  merge_sort validatorLe validators.

(** The validator set that [GetValidatorSet] returns is a Go map. A [range]
    over it visits every entry once, in an order the runtime picks: the order
    is a parameter of a run. *)
Definition MapRange : Type := gmap Z Z → list (ShortID * Z).

Definition valid_range (range : MapRange) : Prop :=
  ∀ m, range m ≡ₚ map_to_list m.

(** The interface [sampler.WeightedWithoutReplacement]; the receiver's state
    is threaded through each call. *)
Class WeightedWithoutReplacement (St : Type) : Type := {
  Initialize : St → list Z → St * option error;
  Seed : St → Z → St;
  Sample : St → Z → St * (error + list Z);
}.

(** The calls a run of [Delay] makes on its sampler, in order. *)
Inductive SamplerCall : Type :=
  | CallInitialize (weights : list Z)
  | CallSeed (seed : Z)
  | CallSample (count : Z).

(** What a call does: it returns Go's pair [(time.Duration, error)], or it
    panics (an index out of the slice's range). *)
Inductive outcome : Type :=
  | Returns (delay : Z) (err : option error)
  | Panics.

Global Instance outcome_eq_dec : EqDecision outcome.
Proof. solve_decision. Defined.

Record DelayRun (St : Type) : Type := {
  result : outcome;
  sampler_after : St;
  calls : list SamplerCall;
}.
Arguments result {St} _.
Arguments sampler_after {St} _.
Arguments calls {St} _.

Record windower (St : Type) : Type := {
  vm : Z → ID → error + gmap Z Z;   (* validators.VM: GetValidatorSet *)
  subnetID : ID;
  sampler : St;
}.
Arguments vm {St} _.
Arguments subnetID {St} _.
Arguments sampler {St} _.

(** Lines 55-67: the map is flattened while the weights are summed. *)
Fixpoint collect (entries : list (ShortID * Z)) (validators : list validatorData)
    (weight : Z) : error + (list validatorData * Z) :=
  match entries with
  | [] => inr (validators, weight)
  | kv :: entries =>
      let validators := validators ++ [toData kv] in
      match Add64 weight kv.2 with
      | inl err => inl err
      | inr newWeight => collect entries validators newWeight
      end
  end.

(** Lines 84-87. *)
Definition numToSample (weight : Z) : Z :=
  if decide (maxWindows < weight) then to_int64 weight else maxWindows.

(** Lines 96-104: the walk over the sampled indices. *)
Fixpoint walk (validators : list validatorData) (validatorID : ShortID)
    (indices : list Z) (delay : Z) : outcome :=
  match indices with
  | [] => Returns delay None
  | index :: indices =>
      if decide (index < 0) then Panics else
      match validators !! Z.to_nat index with
      | None => Panics
      | Some v =>
          if decide (id v = validatorID) then Returns delay None
          else walk validators validatorID indices (to_int64 (delay + windowDuration))
      end
  end.

Section Delay.
Context {St : Type} `{!WeightedWithoutReplacement St}.

(** Lines 47-105. A run takes the windower and the order in which this
    execution ranges over the map; it gives the returned pair (or the
    panic), the sampler it leaves behind and the calls it made on it. *)

Definition Delay (w : windower St) (range : MapRange)
    (chainHeight pChainHeight : Z) (validatorID : ShortID) : DelayRun St :=
  match vm w pChainHeight (subnetID w) with
  | inl err => {| result := Returns 0 (Some err); sampler_after := sampler w; calls := [] |}
  | inr validatorsMap =>
      match collect (range validatorsMap) [] 0 with
      | inl err =>
          {| result := Returns 0 (Some err); sampler_after := sampler w; calls := [] |}
      | inr (validators, weight) =>
          let validators := sortValidators validators in
          let validatorWeights := Windower.weight <$> validators in
          let '(s1, ierr) := Initialize (sampler w) validatorWeights in
          match ierr with
          | Some err =>
              {| result := Returns 0 (Some err); sampler_after := s1;
                 calls := [CallInitialize validatorWeights] |}
          | None =>
              let numToSample := numToSample weight in
              let s2 := Seed s1 (to_int64 chainHeight) in
              let '(s3, sampled) := Sample s2 numToSample in
              let calls := [CallInitialize validatorWeights;
                            CallSeed (to_int64 chainHeight);
                            CallSample numToSample] in
              match sampled with
              | inl err =>
                  {| result := Returns 0 (Some err); sampler_after := s3; calls := calls |}
              | inr indices =>
                  {| result := walk validators validatorID indices 0;
                     sampler_after := s3; calls := calls |}
              end
          end
      end
  end.
End Delay.

(** ** The sampler, as the specification describes it *)

(** The population of weight units: index [i] occupies [weights !! i] slots. *)
Fixpoint units_from (i : Z) (weights : list Z) : list Z :=
  match weights with
  | [] => []
  | w :: weights => replicate (Z.to_nat w) i ++ units_from (i + 1) weights
  end.

Definition units (weights : list Z) : list Z := units_from 0 weights.

Section SamplerContract.
Context (St : Type) `{!WeightedWithoutReplacement St}.

(** What [Sample count] answers once the sampler was initialised with
    [weights] and seeded with [seed], whatever it held before. *)
Definition draw (s : St) (weights : list Z) (seed count : Z) : error + list Z :=
  (Sample (Seed (Initialize s weights).1 seed) count).2.

(** Modelled from the spec: utils/sampler is not part of the sources at
    hand. The sampler is deterministic: the answers of [Initialize] and of
    [Sample] depend on the weights, the seed and the count only, not on
    what the sampler was used for before. *)
Definition deterministic : Prop :=
  ∀ (s1 s2 : St) weights seed count,
    (Initialize s1 weights).2 = (Initialize s2 weights).2 ∧
    draw s1 weights seed count = draw s2 weights seed count.

(** Modelled from the spec: utils/sampler is not part of the sources at
    hand. The sampler draws weight units without replacement and returns
    an index sequence of the requested length, capped at the size of the
    population. *)
Definition without_replacement : Prop :=
  ∀ (s : St) weights seed count,
    Forall (λ w, 0 ≤ w) weights → sumZ weights ≤ MaxInt64 → 0 ≤ count →
    (Initialize s weights).2 = None ∧
    ∃ indices, draw s weights seed count = inr indices ∧
      Z.of_nat (length indices) = Z.min count (sumZ weights) ∧
      indices ⊆+ units weights.
End SamplerContract.

(** Modelled from the spec: one sampler that meets both contracts, used to
    run [Delay] on concrete snapshots: the weight units in index order,
    rotated by the seed, cut at the requested count. *)
Record rotatingSampler : Type := { rs_weights : list Z; rs_seed : Z }.

Global Instance rotatingSampler_sampler : WeightedWithoutReplacement rotatingSampler := {
  Initialize s weights := ({| rs_weights := weights; rs_seed := rs_seed s |}, None);
  Seed s seed := {| rs_weights := rs_weights s; rs_seed := seed |};
  Sample s count :=
    (s, inr (take (Z.to_nat count)
               (rotate (Z.to_nat (Z.abs (rs_seed s))) (units (rs_weights s)))));
}.

Definition fresh : rotatingSampler := {| rs_weights := []; rs_seed := 0 |}.

(** The total weight of a snapshot, as a mathematical sum. *)
Definition totalWeight (m : gmap Z Z) : Z := sumZ ((map_to_list m).*2).

(** An index that the walk passes over: it is in range and its validator is
    not the one asked for. *)
Definition passes (validators : list validatorData) (validatorID : Z) (index : Z) : Prop :=
  0 ≤ index ∧ ∃ v, validators !! Z.to_nat index = Some v ∧ id v ≠ validatorID.

(** An index at which the walk stops. *)
Definition stops (validators : list validatorData) (validatorID : Z) (index : Z) : Prop :=
  0 ≤ index ∧ ∃ v, validators !! Z.to_nat index = Some v ∧ id v = validatorID.

(** A windower over the rotating sampler whose validator state answers with
    the snapshot [m] at every height. *)
Definition fixed_windower (m : gmap Z Z) : windower rotatingSampler :=
  {| vm := λ _ _, inr m; subnetID := 0; sampler := fresh |}.

(** The canonical ordering of a snapshot. *)
Definition canonical (m : gmap Z Z) : list validatorData :=
  sortValidators (toData <$> map_to_list m).

(** Every weight of the snapshot is a [uint64]. *)
Definition uint64_weights (m : gmap Z Z) : Prop :=
  map_Forall (λ _ w, 0 ≤ w ≤ MaxUint64) m.

End Windower.

(** * vms/proposervm/pre_fork_block.go *)
Module ProposerVM.

(** [choices.Status]. *)
Inductive Status : Type := Unknown | Processing | Rejected | Accepted.

Global Instance Status_eq_dec : EqDecision Status.
Proof. solve_decision. Defined.

Section Lineage.
(** The state of the wrapped chain, which the calls into it read and
    change. *)
Context {Inner : Type}.

(** [snowman.Block], the wrapped chain's block, through the methods this
    file calls. *)
Record Block : Type := {
  blk_ID : ID;
  blk_Parent : ID;
  blk_Timestamp : Z;
  blk_Status : Inner → Status;
  blk_Verify : Inner → option error * Inner;
}.

(** [*postForkBlock]: the signed block and the inner block it wraps. *)
Record postForkBlock : Type := {
  pfb_ID : ID;
  pfb_PChainHeight : Z;
  pfb_Timestamp : Z;
  pfb_SignedBlock_Verify : bool → ID → option error;
  innerBlk : Block;
}.

(** [*postForkOption]. *)
Record postForkOption : Type := {
  opt_ID : ID;
  opt_innerBlk : Block;
}.

(** [*preForkBlock]: the embedded [snowman.Block]; the [vm] pointer is the
    state that every method below takes and returns. *)
Record preForkBlock : Type := { pre_Block : Block }.

(** The fields of [*VM] that this file reads or writes, and what its
    collaborators answer: [clock] is [vm.Time()], [GetCurrentHeight] the
    answer of [ctx.ValidatorState], [GetLastAccepted] the answer of the
    block store. [Tree] is the set of verified inner blocks and
    [verifyCalls] the log of the calls made to the wrapped chain's
    [Verify]. *)
Record VM : Type := {
  activationTime : Z;
  minimumPChainHeight : Z;
  chainID : ID;
  clock : Z;                               (* vm.Time() *)
  GetCurrentHeight : error + Z;            (* ctx.ValidatorState *)
  GetLastAccepted : error + ID;
  Tree : gset Z;
  verifiedBlocks : gmap Z postForkBlock;
  inner : Inner;
  verifyCalls : list ID;
}.

(** Modelled from the spec: vms/proposervm/tree is not part of the sources
    at hand; it is the set of inner blocks that passed the wrapped chain's
    verification, held here by their identity, with a membership test and
    an insertion. *)
Definition Tree_Contains (vm : VM) (blk : Block) : bool :=
  bool_decide (blk_ID blk ∈ Tree vm).

Definition Tree_Add (vm : VM) (blk : Block) : VM :=
  {| activationTime := activationTime vm;
     minimumPChainHeight := minimumPChainHeight vm;
     chainID := chainID vm;
     clock := clock vm;
     GetCurrentHeight := GetCurrentHeight vm;
     GetLastAccepted := GetLastAccepted vm;
     Tree := {[blk_ID blk]} ∪ Tree vm;
     verifiedBlocks := verifiedBlocks vm;
     inner := inner vm;
     verifyCalls := verifyCalls vm |}.

Definition set_verifiedBlocks (vm : VM) (childID : ID) (child : postForkBlock) : VM :=
  {| activationTime := activationTime vm;
     minimumPChainHeight := minimumPChainHeight vm;
     chainID := chainID vm;
     clock := clock vm;
     GetCurrentHeight := GetCurrentHeight vm;
     GetLastAccepted := GetLastAccepted vm;
     Tree := Tree vm;
     verifiedBlocks := <[childID := child]> (verifiedBlocks vm);
     inner := inner vm;
     verifyCalls := verifyCalls vm |}.

(** A call of the wrapped chain's [Verify] on [blk]. *)
Definition callVerify (blk : Block) (vm : VM) : option error * VM :=
  let '(err, inner') := blk_Verify blk (inner vm) in
  (err,
   {| activationTime := activationTime vm;
      minimumPChainHeight := minimumPChainHeight vm;
      chainID := chainID vm;
      clock := clock vm;
      GetCurrentHeight := GetCurrentHeight vm;
      GetLastAccepted := GetLastAccepted vm;
      Tree := Tree vm;
      verifiedBlocks := verifiedBlocks vm;
      inner := inner';
      verifyCalls := verifyCalls vm ++ [blk_ID blk] |}).

(** Declared in files that are not part of the sources at hand: the
    constant [maxSkew] and the two oracle checks, which ask the block
    whether it is an oracle block. *)
Variable maxSkew : Z.
Variable verifyIsOracleBlock : Block → Inner → option error.
Variable verifyIsNotOracleBlock : Block → Inner → option error.

(** Lines 217-238. *)
Definition verifyIsPreForkBlock (b : preForkBlock) (vm : VM) : option error :=
  if decide (blk_Status (pre_Block b) (inner vm) = Accepted) then
    match GetLastAccepted vm with
    | inr _ => Some errUnexpectedBlockType
    | inl err => if decide (err ≠ ErrNotFound) then Some err else None
    end
  else if Tree_Contains vm (pre_Block b) then Some errUnexpectedBlockType
  else None.

(** Lines 68-84. *)
Definition verifyPreForkChild (b child : preForkBlock) (vm : VM) : option error * VM :=
  let parentTimestamp := blk_Timestamp (pre_Block b) in
  let checked :=
    if decide (¬ parentTimestamp < activationTime vm) then
      match verifyIsOracleBlock (pre_Block b) (inner vm) with
      | Some err => Some err
      | None => verifyIsPreForkBlock b vm
      end
    else None in
  match checked with
  | Some err => (Some err, vm)
  | None => callVerify (pre_Block child) vm
  end.

(** Lines 87-156: each check returns its error in the state it found; the
    inner block is verified unless it is in [Tree]; on success the child is
    recorded in [verifiedBlocks]. *)
Definition verifyPostForkChild (b : preForkBlock) (child : postForkBlock) (vm : VM)
    : option error * VM :=
  match verifyIsNotOracleBlock (pre_Block b) (inner vm) with
  | Some err => (Some err, vm)
  | None =>
  match verifyIsPreForkBlock b vm with
  | Some err => (Some err, vm)
  | None =>
  let childID := pfb_ID child in
  let childPChainHeight := pfb_PChainHeight child in
  match GetCurrentHeight vm with
  | inl err => (Some err, vm)
  | inr currentPChainHeight =>
  if decide (childPChainHeight > currentPChainHeight)
  then (Some errPChainHeightNotReached, vm) else
  if decide (childPChainHeight < minimumPChainHeight vm)
  then (Some errPChainHeightTooLow, vm) else
  let expectedInnerParentID := blk_ID (pre_Block b) in
  let innerParentID := blk_Parent (innerBlk child) in
  if decide (innerParentID ≠ expectedInnerParentID)
  then (Some errInnerParentMismatch, vm) else
  let parentTimestamp := blk_Timestamp (pre_Block b) in
  if decide (parentTimestamp < activationTime vm)
  then (Some errProposersNotActivated, vm) else
  let childTimestamp := pfb_Timestamp child in
  if decide (childTimestamp < parentTimestamp)
  then (Some errTimeNotMonotonic, vm) else
  let maxTimestamp := clock vm + maxSkew in
  if decide (childTimestamp > maxTimestamp)
  then (Some errTimeTooAdvanced, vm) else
  match pfb_SignedBlock_Verify child false (chainID vm) with
  | Some err => (Some err, vm)
  | None =>
  let '(err, vm) :=
    if negb (Tree_Contains vm (innerBlk child)) then
      match callVerify (innerBlk child) vm with
      | (Some err, vm) => (Some err, vm)
      | (None, vm) => (None, Tree_Add vm (innerBlk child))
      end
    else (None, vm) in
  match err with
  | Some err => (Some err, vm)
  | None => (None, set_verifiedBlocks vm childID child)
  end
  end end end end.

(** Lines 158-160. *)
Definition verifyPostForkOption (b : preForkBlock) (child : postForkOption) (vm : VM)
    : option error * VM :=
  (Some errUnexpectedBlockType, vm).

(** Lines 213-215. *)
Definition pChainHeight (b : preForkBlock) (vm : VM) : Z * option error :=
  (0, None).

(** The checks of [verifyPostForkChild] that come before the verification
    of the inner block (lines 88-140) all pass. *)
Definition checks_pass (b : preForkBlock) (child : postForkBlock) (vm : VM) : Prop :=
  verifyIsNotOracleBlock (pre_Block b) (inner vm) = None ∧
  verifyIsPreForkBlock b vm = None ∧
  (∃ h, GetCurrentHeight vm = inr h ∧ pfb_PChainHeight child ≤ h) ∧
  minimumPChainHeight vm ≤ pfb_PChainHeight child ∧
  blk_Parent (innerBlk child) = blk_ID (pre_Block b) ∧
  activationTime vm ≤ blk_Timestamp (pre_Block b) ∧
  blk_Timestamp (pre_Block b) ≤ pfb_Timestamp child ∧
  pfb_Timestamp child ≤ clock vm + maxSkew ∧
  pfb_SignedBlock_Verify child false (chainID vm) = None.
End Lineage.

Arguments Block : clear implicits.
Arguments postForkBlock : clear implicits.
Arguments postForkOption : clear implicits.
Arguments preForkBlock : clear implicits.
Arguments VM : clear implicits.

(** ** Child construction *)

(** [time.Time.Truncate]: the instant rounded down to a multiple of [d];
    unchanged when [d] is not positive. Instants are counted in
    nanoseconds. *)
Definition Truncate (t d : Z) : Z :=
  if decide (d ≤ 0) then t else t - t `mod` d.

(** [block.SignedBlock], through the methods of it that a post-fork block
    exposes. *)
Record SignedBlock : Type := {
  sb_ID : ID;
  sb_ParentID : ID;
  sb_PChainHeight : Z;
  sb_Timestamp : Z;
  sb_Verify : bool → ID → option error;
}.

Section Build.
Context {Inner : Type}.

(** The [*postForkBlock] made of a signed block and the inner block it
    wraps (lines 199-206; the status field is not read by this file). *)
Definition postForkBlock_of (statelessBlock : SignedBlock) (innerBlock : Block Inner)
    : postForkBlock Inner :=
  {| pfb_ID := sb_ID statelessBlock;
     pfb_PChainHeight := sb_PChainHeight statelessBlock;
     pfb_Timestamp := sb_Timestamp statelessBlock;
     pfb_SignedBlock_Verify := sb_Verify statelessBlock;
     innerBlk := innerBlock |}.

(** The [Block] that [buildChild] returns is one of the two shapes. *)
Inductive builtBlock : Type :=
  | BuiltPreFork (blk : preForkBlock Inner)
  | BuiltPostFork (blk : postForkBlock Inner).

(** Declared in files that are not part of the sources at hand: the bytes of
    an inner block, the assembly of an unsigned block and the block store. *)
Variable Bytes : Block Inner → list Z.
Variable BuildUnsigned : ID → Z → Z → list Z → error + SignedBlock.
Variable storePostForkBlock : postForkBlock Inner → VM Inner → option error * VM Inner.

(** Lines 162-211: Go's pair [(Block, error)] and the state left behind. *)
Definition buildChild (b : preForkBlock Inner) (innerBlock : Block Inner) (vm : VM Inner)
    : option builtBlock * option error * VM Inner :=
  let parentTimestamp := blk_Timestamp (pre_Block b) in
  if decide (parentTimestamp < activationTime vm) then
    (Some (BuiltPreFork {| pre_Block := innerBlock |}), None, vm)
  else
    let parentID := blk_ID (pre_Block b) in
    let newTimestamp := Truncate (clock vm) Second in
    let newTimestamp :=
      if decide (newTimestamp < parentTimestamp) then parentTimestamp else newTimestamp in
    match GetCurrentHeight vm with
    | inl err => (None, Some err, vm)
    | inr pChainHeight =>
        match BuildUnsigned parentID newTimestamp pChainHeight (Bytes innerBlock) with
        | inl err => (None, Some err, vm)
        | inr statelessBlock =>
            let blk := postForkBlock_of statelessBlock innerBlock in
            let '(err, vm) := storePostForkBlock blk vm in
            (Some (BuiltPostFork blk), err, vm)
        end
    end.

(** The signed block that [BuildUnsigned] assembles reports the parent, the
    timestamp and the height it was given. *)
Definition builds_as_asked : Prop :=
  ∀ parentID timestamp pChainHeight bytes statelessBlock,
    BuildUnsigned parentID timestamp pChainHeight bytes = inr statelessBlock →
    sb_ParentID statelessBlock = parentID ∧
    sb_Timestamp statelessBlock = timestamp ∧
    sb_PChainHeight statelessBlock = pChainHeight.
End Build.

Arguments builtBlock : clear implicits.

(** ** A small chain to run the verifications on

    The wrapped chain counts the verifications it ran. Block 1 is the
    pre-fork parent; block 2 is its inner child, wrapped by the two post-fork
    blocks 10 and 11. *)
Definition parentBlk : Block nat :=
  {| blk_ID := 1; blk_Parent := 0; blk_Timestamp := 100;
     blk_Status := λ _, Processing; blk_Verify := λ n, (None, S n) |}.

Definition innerChild : Block nat :=
  {| blk_ID := 2; blk_Parent := 1; blk_Timestamp := 110;
     blk_Status := λ _, Processing; blk_Verify := λ n, (None, S n) |}.

Definition childA : postForkBlock nat :=
  {| pfb_ID := 10; pfb_PChainHeight := 5; pfb_Timestamp := 110;
     pfb_SignedBlock_Verify := λ _ _, None; innerBlk := innerChild |}.

Definition childB : postForkBlock nat :=
  {| pfb_ID := 11; pfb_PChainHeight := 6; pfb_Timestamp := 115;
     pfb_SignedBlock_Verify := λ _ _, None; innerBlk := innerChild |}.

Definition vmAt (activation : Z) : VM nat :=
  {| activationTime := activation; minimumPChainHeight := 3; chainID := 0;
     clock := 120; GetCurrentHeight := inr 7; GetLastAccepted := inl ErrNotFound;
     Tree := ∅; verifiedBlocks := ∅; inner := 0%nat; verifyCalls := [] |}.

Definition neverOracle : Block nat → nat → option error := λ _ _, None.

Definition alwaysOracle : Block nat → nat → option error := λ _ _, None.

Definition noBytes : Block nat → list Z := λ _, [].

(** An assembly of unsigned blocks for the small chain: the block gets the
    identity 10 and verifies as unsigned. *)
Definition plainBuild (parentID timestamp pChainHeight : Z) (bytes : list Z)
    : error + SignedBlock :=
  inr {| sb_ID := 10; sb_ParentID := parentID; sb_PChainHeight := pChainHeight;
         sb_Timestamp := timestamp;
         sb_Verify := λ signed _, if signed then Some (errExternal "unsigned") else None |}.

(** An assembly that always fails. *)
Definition failingBuild (parentID timestamp pChainHeight : Z) (bytes : list Z)
    : error + SignedBlock :=
  inl (errExternal "no block").

(** A block store that always succeeds and keeps nothing. *)
Definition noStore : postForkBlock nat → VM nat → option error * VM nat :=
  λ _ vm, (None, vm).

(** The post-fork block that [plainBuild] gives around [innerChild] for the
    parent 1, the height 7 and the third second. *)
Definition builtChild : postForkBlock nat :=
  postForkBlock_of
    {| sb_ID := 10; sb_ParentID := 1; sb_PChainHeight := 7; sb_Timestamp := 3000000000;
       sb_Verify := λ signed _, if signed then Some (errExternal "unsigned") else None |}
    innerChild.

(** A post-fork block around [inner] that declares the given height and
    timestamp, and an inner block whose parent is not block 1. *)
Definition childWith (height timestamp : Z) (inner : Block nat) : postForkBlock nat :=
  {| pfb_ID := 12; pfb_PChainHeight := height; pfb_Timestamp := timestamp;
     pfb_SignedBlock_Verify := λ _ _, None; innerBlk := inner |}.

Definition strayInner : Block nat :=
  {| blk_ID := 3; blk_Parent := 9; blk_Timestamp := 110;
     blk_Status := λ _, Processing; blk_Verify := λ n, (None, S n) |}.

(** The small chain with its clock at [now]. *)
Definition vmNow (activation now : Z) : VM nat :=
  {| activationTime := activation; minimumPChainHeight := 3; chainID := 0;
     clock := now; GetCurrentHeight := inr 7; GetLastAccepted := inl ErrNotFound;
     Tree := ∅; verifiedBlocks := ∅; inner := 0%nat; verifyCalls := [] |}.

End ProposerVM.

(** * Properties of the windower *)
Module WindowerFacts.
Import Windower.

(** ** Signed 64-bit arithmetic *)

Lemma to_int64_small z : - 2 ^ 63 ≤ z ≤ MaxInt64 → to_int64 z = z.
Proof.
  unfold to_int64, MaxInt64. intros Hz.
  rewrite Z.mod_small by lia. lia.
Qed.

Lemma to_int64_add_l a b : to_int64 (to_int64 a + b) = to_int64 (a + b).
Proof.
  unfold to_int64.
  replace ((a + 2 ^ 63) `mod` 2 ^ 64 - 2 ^ 63 + b + 2 ^ 63)
    with ((a + 2 ^ 63) `mod` 2 ^ 64 + b) by lia.
  rewrite Zplus_mod_idemp_l. do 2 f_equal. lia.
Qed.

(** ** The summation loop *)

Lemma sumZ_nonneg l : Forall (λ w, 0 ≤ w) l → 0 ≤ sumZ l.
Proof. induction 1; simpl; lia. Qed.

Global Instance sumZ_Permutation : Proper ((≡ₚ) ==> (=)) sumZ.
Proof. induction 1; simpl; lia. Qed.

Lemma collect_exact entries : ∀ validators weight,
  Forall (λ kv, 0 ≤ kv.2) entries →
  weight + sumZ (entries.*2) ≤ MaxUint64 →
  collect entries validators weight
  = inr (validators ++ (toData <$> entries), weight + sumZ (entries.*2)).
Proof.
  induction entries as [|kv entries IH]; intros validators weight Hpos Hsum; csimpl.
  - by rewrite app_nil_r, Z.add_0_r.
  - inversion Hpos as [|?? Hkv Hrest]; subst. csimpl in Hsum.
    assert (0 ≤ sumZ (entries.*2)) by by apply sumZ_nonneg, Forall_fmap.
    unfold Add64. case_decide; [lia|].
    rewrite IH by (done || lia).
    by rewrite <- app_assoc, Z.add_assoc.
Qed.

Lemma collect_overflow entries : ∀ validators weight,
  Forall (λ kv, 0 ≤ kv.2 ≤ MaxUint64) entries →
  0 ≤ weight ≤ MaxUint64 →
  MaxUint64 < weight + sumZ (entries.*2) →
  collect entries validators weight = inl errOverflow.
Proof.
  induction entries as [|kv entries IH]; intros validators weight Hpos Hw Hsum; csimpl in *.
  - lia.
  - inversion Hpos as [|?? Hkv Hrest]; subst.
    unfold Add64. case_decide; [done|].
    apply IH; [done|lia|lia].
Qed.

(** ** The canonical ordering *)

Global Instance validatorLe_trans : Transitive validatorLe.
Proof. unfold validatorLe. intros x y z. lia. Qed.

Global Instance validatorLe_total : Total validatorLe.
Proof. unfold validatorLe. intros x y. lia. Qed.

Lemma NoDup_fmap_eq {A B} (f : A → B) (l : list A) x y :
  NoDup (f <$> l) → x ∈ l → y ∈ l → f x = f y → x = y.
Proof.
  induction l as [|a l IH]; csimpl; intros Hnd Hx Hy Hf.
  - by apply not_elem_of_nil in Hx.
  - apply NoDup_cons in Hnd as [Ha Hnd].
    apply elem_of_cons in Hx as [->|Hx]; apply elem_of_cons in Hy as [->|Hy];
      [done| | |by apply IH].
    + exfalso. apply Ha. rewrite Hf. by apply list_elem_of_fmap_2.
    + exfalso. apply Ha. rewrite <- Hf. by apply list_elem_of_fmap_2.
Qed.

Lemma sortValidators_Permutation l : sortValidators l ≡ₚ l.
Proof. apply merge_sort_Permutation. Qed.

Lemma sortValidators_sorted l : StronglySorted validatorLe (sortValidators l).
Proof. apply StronglySorted_merge_sort; apply _. Qed.

Lemma sortValidators_canonical l1 l2 :
  l1 ≡ₚ l2 → NoDup (id <$> l1) → sortValidators l1 = sortValidators l2.
Proof.
  intros Hperm Hnd.
  apply (StronglySorted_unique_strong validatorLe);
    [|apply sortValidators_sorted..|by rewrite !sortValidators_Permutation].
  intros x1 x2 Hx1 Hx2 H12 H21.
  rewrite sortValidators_Permutation in Hx1, Hx2. rewrite <- Hperm in Hx2.
  apply (NoDup_fmap_eq id l1); [done..|]. unfold validatorLe in *. lia.
Qed.

Lemma id_toData (entries : list (Z * Z)) : id <$> (toData <$> entries) = entries.*1.
Proof. rewrite <- list_fmap_compose. by apply list_fmap_ext. Qed.

Lemma weight_toData (entries : list (Z * Z)) : weight <$> (toData <$> entries) = entries.*2.
Proof. rewrite <- list_fmap_compose. by apply list_fmap_ext. Qed.

Lemma sorted_range range m :
  range m ≡ₚ map_to_list m → sortValidators (toData <$> range m) = canonical m.
Proof.
  intros Hr. apply sortValidators_canonical; [by rewrite Hr|].
  rewrite id_toData, Hr. apply NoDup_fst_map_to_list.
Qed.

Lemma canonical_Permutation m : canonical m ≡ₚ toData <$> map_to_list m.
Proof. apply sortValidators_Permutation. Qed.

Lemma canonical_weights m : sumZ (weight <$> canonical m) = totalWeight m.
Proof. by rewrite canonical_Permutation, weight_toData. Qed.

Lemma elem_of_canonical m v : v ∈ canonical m ↔ m !! id v = Some (weight v).
Proof.
  rewrite canonical_Permutation, list_elem_of_fmap. split.
  - intros [[k w] [-> Hkw]]. by apply elem_of_map_to_list in Hkw.
  - intros Hv. exists (id v, weight v). split; [by destruct v|].
    by apply elem_of_map_to_list.
Qed.

Lemma uint64_weights_entries m :
  uint64_weights m → Forall (λ kv : Z * Z, 0 ≤ kv.2 ≤ MaxUint64) (map_to_list m).
Proof.
  intros Hm. apply Forall_forall. intros [k w] Hkw.
  apply elem_of_map_to_list in Hkw. by apply (Hm k w).
Qed.

Lemma canonical_weights_nonneg m :
  uint64_weights m → Forall (λ w, 0 ≤ w) (weight <$> canonical m).
Proof.
  intros Hm. rewrite canonical_Permutation, weight_toData.
  apply Forall_fmap. eapply Forall_impl; [by apply uint64_weights_entries|].
  simpl. intros; lia.
Qed.

(** The summation loop over a whole snapshot, whatever the order. *)
Lemma collect_range range m :
  range m ≡ₚ map_to_list m → uint64_weights m →
  collect (range m) [] 0
  = if decide (totalWeight m ≤ MaxUint64)
    then inr (toData <$> range m, totalWeight m) else inl errOverflow.
Proof.
  intros Hr Hm.
  assert (Forall (λ kv : Z * Z, 0 ≤ kv.2 ≤ MaxUint64) (range m)) as Hall.
  { rewrite Hr. by apply uint64_weights_entries. }
  assert (sumZ ((range m).*2) = totalWeight m) as Hsum.
  { unfold totalWeight. by rewrite Hr. }
  case_decide.
  - rewrite collect_exact; [by rewrite Hsum| |lia].
    eapply Forall_impl; [done|]. simpl. intros; lia.
  - apply collect_overflow; [done|unfold MaxUint64; lia|lia].
Qed.

Section Runs.
Context {St : Type} `{!WeightedWithoutReplacement St}.

(** A run does not depend on the order in which the map was ranged. *)
Lemma Delay_any_range (w : windower St) range chainHeight pChainHeight validatorID :
  valid_range range →
  (∀ m, vm w pChainHeight (subnetID w) = inr m → uint64_weights m) →
  Delay w range chainHeight pChainHeight validatorID
  = Delay w map_to_list chainHeight pChainHeight validatorID.
Proof.
  intros Hr Hm. unfold Delay.
  destruct (vm w pChainHeight (subnetID w)) as [err|m]; [done|].
  rewrite !collect_range by auto. case_decide; [|done].
  by rewrite (sorted_range range), (sorted_range map_to_list).
Qed.

(** The run on a snapshot, once the summation loop and the sort are done. *)
Lemma Delay_snapshot (w : windower St) chainHeight pChainHeight validatorID m :
  vm w pChainHeight (subnetID w) = inr m →
  uint64_weights m →
  Delay w map_to_list chainHeight pChainHeight validatorID
  = if decide (totalWeight m ≤ MaxUint64) then
      let '(s1, ierr) := Initialize (sampler w) (weight <$> canonical m) in
      match ierr with
      | Some err =>
          {| result := Returns 0 (Some err); sampler_after := s1;
             calls := [CallInitialize (weight <$> canonical m)] |}
      | None =>
          let '(s3, sampled) :=
            Sample (Seed s1 (to_int64 chainHeight)) (numToSample (totalWeight m)) in
          {| result :=
               match sampled with
               | inl err => Returns 0 (Some err)
               | inr indices => walk (canonical m) validatorID indices 0
               end;
             sampler_after := s3;
             calls := [CallInitialize (weight <$> canonical m);
                       CallSeed (to_int64 chainHeight);
                       CallSample (numToSample (totalWeight m))] |}
      end
    else {| result := Returns 0 (Some errOverflow); sampler_after := sampler w;
            calls := [] |}.
Proof.
  intros Hvm Hm. unfold Delay. rewrite Hvm.
  rewrite collect_range by done. case_decide; [|done].
  rewrite (sorted_range map_to_list) by done.
  destruct (Initialize _ _) as [s1 [err|]]; [done|].
  by destruct (Sample _ _) as [s3 [err|indices]].
Qed.

(** The value a run returns, through what the sampler answers. *)
Lemma Delay_result (w : windower St) chainHeight pChainHeight validatorID m :
  vm w pChainHeight (subnetID w) = inr m →
  uint64_weights m →
  result (Delay w map_to_list chainHeight pChainHeight validatorID)
  = if decide (totalWeight m ≤ MaxUint64) then
      match (Initialize (sampler w) (weight <$> canonical m)).2 with
      | Some err => Returns 0 (Some err)
      | None =>
          match draw St (sampler w) (weight <$> canonical m) (to_int64 chainHeight)
                  (numToSample (totalWeight m)) with
          | inl err => Returns 0 (Some err)
          | inr indices => walk (canonical m) validatorID indices 0
          end
      end
    else Returns 0 (Some errOverflow).
Proof.
  intros Hvm Hm. rewrite (Delay_snapshot w _ _ _ m) by done.
  case_decide; [|done]. unfold draw.
  destruct (Initialize _ _) as [s1 [err|]]; [done|]. simpl.
  by destruct (Sample _ _) as [s3 sampled].
Qed.

(** The calls a run makes on its sampler. *)
Lemma Delay_calls (w : windower St) chainHeight pChainHeight validatorID m :
  vm w pChainHeight (subnetID w) = inr m →
  uint64_weights m →
  calls (Delay w map_to_list chainHeight pChainHeight validatorID)
  = if decide (totalWeight m ≤ MaxUint64) then
      match (Initialize (sampler w) (weight <$> canonical m)).2 with
      | Some err => [CallInitialize (weight <$> canonical m)]
      | None => [CallInitialize (weight <$> canonical m);
                 CallSeed (to_int64 chainHeight);
                 CallSample (numToSample (totalWeight m))]
      end
    else [].
Proof.
  intros Hvm Hm. rewrite (Delay_snapshot w _ _ _ m) by done.
  case_decide; [|done].
  destruct (Initialize _ _) as [s1 [err|]]; [done|]. simpl.
  by destruct (Sample _ _) as [s3 sampled].
Qed.

(** The run on a snapshot whose weights sum without overflow, once the
    sampler answered. *)
Lemma Delay_sampled (w : windower St) chainHeight pChainHeight validatorID m indices :
  vm w pChainHeight (subnetID w) = inr m →
  uint64_weights m →
  totalWeight m ≤ MaxUint64 →
  (Initialize (sampler w) (weight <$> canonical m)).2 = None →
  draw St (sampler w) (weight <$> canonical m) (to_int64 chainHeight)
    (numToSample (totalWeight m)) = inr indices →
  result (Delay w map_to_list chainHeight pChainHeight validatorID)
  = walk (canonical m) validatorID indices 0.
Proof.
  intros Hvm Hm Htot Hinit Hdraw.
  rewrite (Delay_result w _ _ _ m) by done.
  by rewrite decide_True, Hinit, Hdraw by done.
Qed.
End Runs.

(** ** The population of weight units *)

Lemma length_units_from weights : ∀ i,
  Forall (λ w, 0 ≤ w) weights →
  Z.of_nat (length (units_from i weights)) = sumZ weights.
Proof.
  induction weights as [|w weights IH]; intros i Hpos; simpl; [done|].
  inversion Hpos; subst.
  rewrite length_app, length_replicate, Nat2Z.inj_add, IH by done. lia.
Qed.

Lemma elem_of_units_from weights : ∀ i x,
  x ∈ units_from i weights ↔
  ∃ n w, x = i + Z.of_nat n ∧ weights !! n = Some w ∧ 0 < w.
Proof.
  induction weights as [|w weights IH]; intros i x; simpl.
  - split; [by intros ?%not_elem_of_nil|by intros (n & w & _ & ? & _)].
  - rewrite elem_of_app, elem_of_replicate, IH. split.
    + intros [[-> Hw]|(n & w' & -> & Hn & Hw')].
      * exists 0%nat, w. split_and!; [lia|done|lia].
      * exists (S n), w'. split_and!; [lia|done|done].
    + intros ([|n] & w' & -> & Hn & Hw'); simpl in Hn.
      * left. injection Hn as ->. split; lia.
      * right. exists n, w'. split_and!; [lia|done|done].
Qed.

Lemma elem_of_units weights x :
  x ∈ units weights ↔ ∃ n w, x = Z.of_nat n ∧ weights !! n = Some w ∧ 0 < w.
Proof. unfold units. rewrite elem_of_units_from. by setoid_rewrite Z.add_0_l. Qed.

(** ** The walk over the sampled indices *)

Lemma walk_passes validators validatorID l1 l2 : ∀ d,
  Forall (passes validators validatorID) l1 →
  walk validators validatorID (l1 ++ l2) (to_int64 d)
  = walk validators validatorID l2
      (to_int64 (d + Z.of_nat (length l1) * windowDuration)).
Proof.
  induction l1 as [|i l1 IH]; intros d Hall; cbn [app length walk].
  - do 2 f_equal. lia.
  - inversion Hall as [|?? (Hi & v & Hv & Hne) Hrest]; subst.
    rewrite decide_False by lia. rewrite Hv, decide_False by done.
    rewrite to_int64_add_l, IH by done. do 2 f_equal. lia.
Qed.


(** ** Coverage *)

Lemma numToSample_max weight :
  0 ≤ weight ≤ MaxInt64 → numToSample weight = Z.max maxWindows weight.
Proof.
  intros Hw. unfold numToSample. case_decide.
  - rewrite to_int64_small by lia. lia.
  - lia.
Qed.

Section Coverage.
Context {St : Type} `{!WeightedWithoutReplacement St}.
Hypothesis sampler_without_replacement : without_replacement St.

(** On a snapshot whose total weight fits a signed 64-bit integer the
    sampler answers with a whole permutation of the weight units. *)
Lemma Delay_draws_all (s : St) m seed :
  uint64_weights m → totalWeight m ≤ MaxInt64 →
  (Initialize s (weight <$> canonical m)).2 = None ∧
  ∃ indices,
    draw St s (weight <$> canonical m) seed (numToSample (totalWeight m)) = inr indices ∧
    indices ≡ₚ units (weight <$> canonical m) ∧
    Z.of_nat (length indices) = totalWeight m.
Proof.
  intros Hm Htot.
  pose proof (canonical_weights_nonneg m Hm) as Hnn.
  pose proof (sumZ_nonneg _ Hnn) as Hsum. rewrite canonical_weights in Hsum.
  rewrite numToSample_max by lia.
  destruct (sampler_without_replacement s (weight <$> canonical m) seed
              (Z.max maxWindows (totalWeight m)))
    as (Hinit & indices & Hdraw & Hlen & Hsub);
    [done|by rewrite canonical_weights|unfold maxWindows; lia|].
  split; [done|]. exists indices. rewrite canonical_weights in Hlen.
  split_and!; [done| |lia].
  apply submseteq_length_Permutation; [done|].
  apply Nat2Z.inj_le. unfold units.
  rewrite length_units_from, canonical_weights by done. lia.
Qed.
End Coverage.

(** ** The rotating sampler meets the contracts of the specification *)

Lemma rotate_Permutation {A} n (l : list A) : rotate n l ≡ₚ l.
Proof.
  unfold rotate. rewrite Permutation_app_comm. by rewrite take_drop.
Qed.

Lemma rotatingSampler_deterministic : deterministic rotatingSampler.
Proof. by intros s1 s2 weights seed count. Qed.

Lemma rotatingSampler_without_replacement : without_replacement rotatingSampler.
Proof.
  intros s weights seed count Hpos Hsum Hcount. split; [done|].
  unfold draw. cbn [Initialize Seed Sample rotatingSampler_sampler fst snd rs_weights rs_seed].
  eexists. split; [reflexivity|]. split.
  - rewrite length_take, length_rotate. unfold units.
    pose proof (length_units_from weights 0 Hpos). lia.
  - etrans; [apply submseteq_take|]. by rewrite rotate_Permutation.
Qed.


(** ** Coverage (continued) *)

Section CoverageTheorem.
Context {St : Type} `{!WeightedWithoutReplacement St}.
Hypothesis sampler_without_replacement : without_replacement St.

End CoverageTheorem.



(** ** The scenario of the specification, run on the rotating sampler *)

Example Delay_scenario :
  let w := fixed_windower {[1 := 1; 2 := 1; 3 := 1]} in
  calls (Delay w map_to_list 42 100 1)
  = [CallInitialize [1; 1; 1]; CallSeed 42; CallSample 5] ∧
  result (Delay w map_to_list 42 100 1) = Returns 0 None ∧
  result (Delay w map_to_list 42 100 2) = Returns (3 * Second) None ∧
  result (Delay w map_to_list 42 100 3) = Returns (6 * Second) None.
Proof. by vm_compute. Qed.

(** ** Determinism *)

Lemma reverse_range_valid : valid_range (λ m, reverse (map_to_list m)).
Proof. intros m. apply reverse_Permutation. Qed.

Lemma map_to_list_valid : valid_range map_to_list.
Proof. by intros m. Qed.

Section Determinism.
Context {St : Type} `{!WeightedWithoutReplacement St}.
Hypothesis sampler_deterministic : deterministic St.

(** C2: two invocations of [Delay] for the same [chainHeight],
    [pChainHeight] and [validatorID], to which the collaborator returns
    the same answer, return the same duration and error: whatever the
    sampler was used for before (on another node, or in an earlier call)
    and in whatever order each run ranges over the map. *)
Theorem Delay_deterministic (w1 w2 : windower St) range1 range2
    chainHeight pChainHeight validatorID :
  valid_range range1 → valid_range range2 →
  vm w1 pChainHeight (subnetID w1) = vm w2 pChainHeight (subnetID w2) →
  (∀ m, vm w1 pChainHeight (subnetID w1) = inr m → uint64_weights m) →
  result (Delay w1 range1 chainHeight pChainHeight validatorID)
  = result (Delay w2 range2 chainHeight pChainHeight validatorID).
Proof.
  intros Hr1 Hr2 Hvm Hm.
  rewrite (Delay_any_range w1 range1) by done.
  rewrite (Delay_any_range w2 range2); [|done|by rewrite <- Hvm].
  destruct (vm w1 pChainHeight (subnetID w1)) as [err|m] eqn:Hvm1.
  - unfold Delay. by rewrite Hvm1, <- Hvm.
  - rewrite (Delay_result w1 _ _ _ m), (Delay_result w2 _ _ _ m) by auto.
    case_decide; [|done].
    destruct (sampler_deterministic (sampler w1) (sampler w2)
                (weight <$> canonical m) (to_int64 chainHeight)
                (numToSample (totalWeight m))) as [-> ->].
    done.
Qed.
End Determinism.

Lemma uint64_weights_2_1 : uint64_weights {[1 := 2; 2 := 1]}.
Proof. apply map_Forall_insert_2; [done|]. by apply map_Forall_singleton. Qed.

(** The second invocation runs on the windower that the first one left
    behind, and ranges over the map in the opposite order. *)
Lemma Delay_deterministic_witness :
  result (Delay (fixed_windower {[1 := 2; 2 := 1]}) map_to_list 7 0 2)
  = result (Delay
      {| vm := λ _ _, inr {[1 := 2; 2 := 1]}; subnetID := 0;
         sampler := sampler_after
                      (Delay (fixed_windower {[1 := 2; 2 := 1]}) map_to_list 3 0 1) |}
      (λ m, reverse (map_to_list m)) 7 0 2).
Proof.
  apply (Delay_deterministic rotatingSampler_deterministic).
  - apply map_to_list_valid.
  - apply reverse_range_valid.
  - reflexivity.
  - intros m [= <-]. apply uint64_weights_2_1.
Defined.

(** ** The number of indices requested *)


Lemma uint64_weights_singleton k v : 0 ≤ v ≤ MaxUint64 → uint64_weights {[k := v]}.
Proof. intros Hv. by apply map_Forall_singleton. Qed.



(** The witness's run, evaluated: a total weight of 7 asks for 7 indices, a
    total weight of 3 for 5. *)
Example Delay_requests_run :
  calls (Delay (fixed_windower {[1 := 4; 2 := 3]}) map_to_list 7 0 2)
  = [CallInitialize [4; 3]; CallSeed 7; CallSample 7] ∧
  calls (Delay (fixed_windower {[1 := 2; 2 := 1]}) map_to_list 7 0 2)
  = [CallInitialize [2; 1]; CallSeed 7; CallSample 5].
Proof. by vm_compute. Qed.

(** ** A validator that is never sampled *)

(** The rotating sampler on the one-validator snapshot [{1: n}]. *)
Lemma draw_single n seed :
  5 ≤ n ≤ MaxInt64 →
  draw rotatingSampler fresh [n] seed (numToSample n) = inr (replicate (Z.to_nat n) 0).
Proof.
  intros Hn. rewrite numToSample_max by lia.
  unfold draw; cbn [Initialize Seed Sample rotatingSampler_sampler fst snd
                    rs_weights rs_seed].
  f_equal. unfold units; cbn [units_from]. rewrite app_nil_r, rotate_replicate.
  apply take_ge. rewrite length_replicate. unfold maxWindows. lia.
Qed.

Lemma Delay_single n :
  5 ≤ n ≤ MaxInt64 →
  result (Delay (fixed_windower {[1 := n]}) map_to_list 0 0 2)
  = Returns (to_int64 (n * windowDuration)) None.
Proof.
  intros Hn.
  assert (canonical {[1 := n]} = [ {| id := 1; weight := n |} ]) as Hcan by reflexivity.
  assert (totalWeight {[1 := n]} = n) as Htot.
  { unfold totalWeight. rewrite map_to_list_singleton. simpl. lia. }
  rewrite (Delay_sampled _ 0 0 2 {[1 := n]} (replicate (Z.to_nat n) 0)).
  - rewrite Hcan.
    pose proof (walk_passes [ {| id := 1; weight := n |} ] 2
                  (replicate (Z.to_nat n) 0) [] 0) as Hwalk.
    change (to_int64 0) with 0 in Hwalk. rewrite app_nil_r in Hwalk. rewrite Hwalk.
    + rewrite length_replicate, Z2Nat.id by lia. by rewrite Z.add_0_l.
    + apply Forall_replicate. split; [done|].
      exists {| id := 1; weight := n |}. by split.
  - done.
  - apply uint64_weights_singleton. unfold MaxUint64, MaxInt64 in *. lia.
  - rewrite Htot. unfold MaxUint64, MaxInt64 in *. lia.
  - done.
  - rewrite Htot, Hcan. by apply draw_single.
Qed.

Section NeverSampled.
Context {St : Type} `{!WeightedWithoutReplacement St}.
Hypothesis sampler_without_replacement : without_replacement St.

(** C4, as amended: on every snapshot whose total weight fits a signed
    64-bit integer the sampler answers with a sequence of [totalWeight]
    indices; no index of it belongs to an identity that is absent from the
    snapshot; and for every [validatorID] that no sampled index belongs to,
    [Delay] returns, with no error, (number of sampled indices) windows of
    3 seconds, provided that product fits the [int64] of a
    [time.Duration]. *)
Theorem Delay_never_sampled (w : windower St) range chainHeight pChainHeight validatorID m :
  valid_range range →
  vm w pChainHeight (subnetID w) = inr m →
  uint64_weights m →
  totalWeight m ≤ MaxInt64 →
  ∃ indices,
    draw St (sampler w) (weight <$> canonical m) (to_int64 chainHeight)
      (numToSample (totalWeight m)) = inr indices ∧
    Z.of_nat (length indices) = totalWeight m ∧
    (m !! validatorID = None →
       Forall (λ i, ¬ stops (canonical m) validatorID i) indices) ∧
    (Forall (λ i, ¬ stops (canonical m) validatorID i) indices →
     Z.of_nat (length indices) * windowDuration ≤ MaxInt64 →
     result (Delay w range chainHeight pChainHeight validatorID)
     = Returns (Z.of_nat (length indices) * windowDuration) None).
Proof.
  intros Hr Hvm Hm Htot.
  assert (0 < windowDuration) as HwD by done.
  destruct (Delay_draws_all sampler_without_replacement (sampler w) m
              (to_int64 chainHeight) Hm Htot)
    as (Hinit & indices & Hdraw & Hperm & Hlen).
  exists indices. split; [done|]. split; [done|].
  assert (Forall (λ i, 0 ≤ i ∧ is_Some (canonical m !! Z.to_nat i)) indices) as Hin.
  { apply Forall_forall. intros i Hi. rewrite Hperm in Hi.
    apply elem_of_units in Hi as (n & w' & -> & Hn & _).
    split; [lia|]. rewrite Nat2Z.id.
    rewrite list_lookup_fmap in Hn. by destruct (canonical m !! n). }
  split.
  - intros Habsent. eapply Forall_impl; [exact Hin|]. simpl.
    intros i [_ [v Hv]] (_ & v' & Hv' & Hid).
    assert (v' ∈ canonical m) as Hel by by eapply list_elem_of_lookup_2.
    apply elem_of_canonical in Hel. congruence.
  - intros Hmiss Hfit.
    assert (Forall (passes (canonical m) validatorID) indices) as Hpass.
    { apply Forall_forall. intros i Hi.
      rewrite Forall_forall in Hin, Hmiss.
      destruct (Hin i Hi) as [Hi0 [v Hv]]. split; [done|].
      exists v. split; [done|]. intros Hid. apply (Hmiss i Hi).
      split; [done|]. by exists v. }
    rewrite Delay_any_range; [|done|by intros m'; rewrite Hvm; intros [= <-]].
    rewrite (Delay_sampled w chainHeight pChainHeight validatorID m indices);
      [|done|done|unfold MaxUint64, MaxInt64 in *; lia|done|done].
    pose proof (walk_passes (canonical m) validatorID indices [] 0 Hpass) as Hwalk.
    change (to_int64 0) with 0 in Hwalk.
    rewrite app_nil_r, Z.add_0_l in Hwalk. cbn [walk] in Hwalk.
    rewrite Hwalk, to_int64_small; [done|]. lia.
Qed.
End NeverSampled.

Lemma uint64_weights_1_1_1 : uint64_weights {[1 := 1; 2 := 1; 3 := 1]}.
Proof.
  do 2 (apply map_Forall_insert_2; [done|]). by apply map_Forall_singleton.
Qed.

(** The scenario of the specification: on the snapshot [{1: 1, 2: 1, 3: 1}]
    read at height 100, for block height 42, an identity that is absent
    from the snapshot waits 9 seconds. *)
Lemma Delay_never_sampled_witness :
  result (Delay (fixed_windower {[1 := 1; 2 := 1; 3 := 1]}) map_to_list 42 100 4)
  = Returns (9 * Second) None.
Proof.
  destruct (Delay_never_sampled rotatingSampler_without_replacement
              (fixed_windower {[1 := 1; 2 := 1; 3 := 1]}) map_to_list 42 100 4
              {[1 := 1; 2 := 1; 3 := 1]})
    as (indices & _ & Hlen & Habsent & Hresult).
  - apply map_to_list_valid.
  - reflexivity.
  - apply uint64_weights_1_1_1.
  - by vm_compute.
  - rewrite (Hresult (Habsent eq_refl)).
    + rewrite Hlen. reflexivity.
    + rewrite Hlen. by vm_compute.
Defined.

(** C4, as stated, fails once the accumulated delay overflows [int64]: on
    the snapshot [{1: 4000000000}] the sampler returns 4000000000 indices,
    none of which belongs to the absent identity 2, and the call returns a
    negative duration instead of 4000000000 windows of 3 seconds. *)
Lemma Delay_never_sampled_counterexample :
  ({[1 := 4000000000]} : gmap Z Z) !! 2 = None ∧
  draw rotatingSampler fresh (weight <$> canonical {[1 := 4000000000]}) (to_int64 0)
    (numToSample (totalWeight {[1 := 4000000000]}))
  = inr (replicate (Z.to_nat 4000000000) 0) ∧
  result (Delay (fixed_windower {[1 := 4000000000]}) map_to_list 0 0 2)
  = Returns (-6446744073709551616) None ∧
  -6446744073709551616 ≠ 4000000000 * windowDuration.
Proof.
  split_and!; [done| | |done].
  - change (weight <$> canonical {[1 := 4000000000]}) with [4000000000].
    change (totalWeight {[1 := 4000000000]}) with 4000000000.
    by apply draw_single.
  - by rewrite Delay_single.
Qed.

(** ** Ordering stability *)

(** C5: two runs that are handed the same (identity, weight) pairs in
    different orders build the same canonical ordering and are the same run:
    same duration and error, same calls on the sampler, same sampler left
    behind, for every [validatorID] and [chainHeight]. *)
Theorem Delay_order_invariant {St : Type} `{!WeightedWithoutReplacement St}
    (w : windower St) range1 range2 chainHeight pChainHeight validatorID m :
  valid_range range1 → valid_range range2 →
  vm w pChainHeight (subnetID w) = inr m →
  uint64_weights m →
  sortValidators (toData <$> range1 m) = sortValidators (toData <$> range2 m) ∧
  Delay w range1 chainHeight pChainHeight validatorID
  = Delay w range2 chainHeight pChainHeight validatorID.
Proof.
  intros Hr1 Hr2 Hvm Hm. split.
  - by rewrite !sorted_range.
  - rewrite (Delay_any_range w range1), (Delay_any_range w range2);
      [done|done| |done|]; by intros m'; rewrite Hvm; intros [= <-].
Qed.

Lemma Delay_order_invariant_witness :
  sortValidators (toData <$> map_to_list ({[1 := 2; 2 := 1]} : gmap Z Z))
  = sortValidators (toData <$> reverse (map_to_list ({[1 := 2; 2 := 1]} : gmap Z Z))) ∧
  Delay (fixed_windower {[1 := 2; 2 := 1]}) map_to_list 7 0 2
  = Delay (fixed_windower {[1 := 2; 2 := 1]}) (λ m, reverse (map_to_list m)) 7 0 2.
Proof.
  apply (Delay_order_invariant (fixed_windower {[1 := 2; 2 := 1]}) map_to_list
           (λ m, reverse (map_to_list m)) 7 0 2 {[1 := 2; 2 := 1]}).
  - apply map_to_list_valid.
  - apply reverse_range_valid.
  - reflexivity.
  - apply uint64_weights_2_1.
Defined.

(** ** Overflow safety *)

(** C6: on every snapshot of [uint64] weights whose sum is past the 64-bit
    unsigned maximum, [Delay] returns the error of the checked summation,
    before the sampler is touched; and whenever [Delay] returns without
    error, the summation loop accumulated the exact sum of the weights. *)
Theorem Delay_overflow_checked {St : Type} `{!WeightedWithoutReplacement St}
    (w : windower St) range chainHeight pChainHeight validatorID m :
  valid_range range →
  vm w pChainHeight (subnetID w) = inr m →
  uint64_weights m →
  (MaxUint64 < totalWeight m →
     result (Delay w range chainHeight pChainHeight validatorID)
     = Returns 0 (Some errOverflow) ∧
     calls (Delay w range chainHeight pChainHeight validatorID) = []) ∧
  (∀ delay,
     result (Delay w range chainHeight pChainHeight validatorID) = Returns delay None →
     ∃ validators, collect (range m) [] 0 = inr (validators, totalWeight m) ∧
                   totalWeight m ≤ MaxUint64).
Proof.
  intros Hr Hvm Hm. split.
  - intros Hover. unfold Delay. rewrite Hvm, collect_range by done.
    by rewrite decide_False by lia.
  - intros delay. unfold Delay. rewrite Hvm, collect_range by done.
    case_decide; [|done]. intros _. by eexists.
Qed.

Lemma uint64_weights_max_1 : uint64_weights {[1 := MaxUint64; 2 := 1]}.
Proof. apply map_Forall_insert_2; [done|]. by apply map_Forall_singleton. Qed.

Lemma Delay_overflow_checked_witness :
  result (Delay (fixed_windower {[1 := MaxUint64; 2 := 1]}) map_to_list 7 0 2)
  = Returns 0 (Some errOverflow) ∧
  calls (Delay (fixed_windower {[1 := MaxUint64; 2 := 1]}) map_to_list 7 0 2) = [].
Proof.
  apply (proj1 (Delay_overflow_checked (fixed_windower {[1 := MaxUint64; 2 := 1]})
                  map_to_list 7 0 2 {[1 := MaxUint64; 2 := 1]}
                  map_to_list_valid eq_refl uint64_weights_max_1)).
  by vm_compute.
Defined.

End WindowerFacts.

(** * Properties of the pre-fork block *)
Module ProposerVMFacts.
Import ProposerVM.

(** A check of [verifyPostForkChild] failed: the call returns its error in
    the state it started from, and [checks_pass] does not hold. *)
Ltac rejected :=
  left; eexists; split; [done|];
  unfold ProposerVM.checks_pass;
  intros (? & ? & (? & ? & ?) & ? & ? & ? & ? & ? & ?);
  simplify_eq; try lia; try congruence.

Section Facts.
Context {Inner : Type}.
Variable maxSkew : Z.
Variable verifyIsNotOracleBlock : Block Inner → Inner → option error.

Abbreviation verifyPostForkChild := (verifyPostForkChild maxSkew verifyIsNotOracleBlock).
Abbreviation checks_pass := (checks_pass maxSkew verifyIsNotOracleBlock).

Implicit Types (b : preForkBlock Inner) (child : postForkBlock Inner) (vm : VM Inner).

(** ** Lineage exclusivity *)

(** C7: a pre-fork block whose timestamp is before the activation time
    rejects every post-fork child: the verification returns an error and
    leaves the state as it was; the error is [errProposersNotActivated]
    when the oracle check, the pre-fork invariant, the height bounds and
    the linkage check pass. *)
Theorem verifyPostForkChild_before_activation b child vm :
  blk_Timestamp (pre_Block b) < activationTime vm →
  (verifyPostForkChild b child vm).1 ≠ None ∧
  (verifyPostForkChild b child vm).2 = vm ∧
  (verifyIsNotOracleBlock (pre_Block b) (inner vm) = None →
   verifyIsPreForkBlock b vm = None →
   (∃ h, GetCurrentHeight vm = inr h ∧ pfb_PChainHeight child ≤ h) →
   minimumPChainHeight vm ≤ pfb_PChainHeight child →
   blk_Parent (innerBlk child) = blk_ID (pre_Block b) →
   (verifyPostForkChild b child vm).1 = Some errProposersNotActivated).
Proof.
  intros Hbefore. unfold ProposerVM.verifyPostForkChild.
  destruct (verifyIsNotOracleBlock _ _) as [err|]; [by split_and!|].
  destruct (verifyIsPreForkBlock b vm) as [err|]; [by split_and!|].
  destruct (GetCurrentHeight vm) as [err|h].
  { split_and!; [done|done|]. by intros _ _ (h & [=] & _). }
  case_decide.
  { split_and!; [done|done|]. intros _ _ (h' & [= <-] & ?). lia. }
  case_decide.
  { split_and!; [done|done|]. intros _ _ _ ?. lia. }
  case_decide.
  { split_and!; [done|done|]. by intros _ _ _ _ ?. }
  rewrite decide_True by done. by split_and!.
Qed.

(** C8: a pre-fork block never accepts a post-fork option: whatever the
    block, the option and the state are, the verification returns
    [errUnexpectedBlockType] and leaves the state as it was. *)
Theorem verifyPostForkOption_rejects b (child : postForkOption Inner) vm :
  verifyPostForkOption b child vm = (Some errUnexpectedBlockType, vm).
Proof. reflexivity. Qed.

(** C10: in every state a pre-fork block reports the P-chain height 0
    with no error, whatever minimum height the configuration asks of
    post-fork children. *)
Theorem pChainHeight_zero b vm : pChainHeight b vm = (0, None).
Proof. reflexivity. Qed.

(** ** Idempotent inner verification *)

Lemma callVerify_calls (blk : Block Inner) vm :
  verifyCalls ((callVerify blk vm).2) = verifyCalls vm ++ [blk_ID blk] ∧
  Tree ((callVerify blk vm).2) = Tree vm ∧
  (callVerify blk vm).1 = (blk_Verify blk (inner vm)).1.
Proof. unfold callVerify. by destruct (blk_Verify blk (inner vm)). Qed.

(** The three ways a verification of a post-fork child ends. *)
Lemma verifyPostForkChild_cases b child vm :
  (∃ err, verifyPostForkChild b child vm = (Some err, vm) ∧ ¬ checks_pass b child vm) ∨
  (checks_pass b child vm ∧ blk_ID (innerBlk child) ∈ Tree vm ∧
   verifyPostForkChild b child vm = (None, set_verifiedBlocks vm (pfb_ID child) child)) ∨
  (checks_pass b child vm ∧ (blk_ID (innerBlk child) ∉ Tree vm) ∧
   verifyPostForkChild b child vm
   = match (callVerify (innerBlk child) vm).1 with
     | Some err => (Some err, (callVerify (innerBlk child) vm).2)
     | None =>
         (None, set_verifiedBlocks
                  (Tree_Add (callVerify (innerBlk child) vm).2 (innerBlk child))
                  (pfb_ID child) child)
     end).
Proof.
  unfold ProposerVM.verifyPostForkChild.
  destruct (verifyIsNotOracleBlock _ _) as [err|] eqn:Horacle; [rejected|].
  destruct (verifyIsPreForkBlock b vm) as [err|] eqn:Hpre; [rejected|].
  destruct (GetCurrentHeight vm) as [err|h] eqn:Hheight; [rejected|].
  do 3 (case_decide; [rejected|]).
  do 3 (case_decide; [rejected|]).
  destruct (pfb_SignedBlock_Verify child false (chainID vm)) as [err|] eqn:Hsig;
    [rejected|].
  assert (checks_pass b child vm) as Hpass.
  { unfold ProposerVM.checks_pass. repeat split; try done; try lia.
    exists h. split; [done|lia]. }
  right. unfold Tree_Contains. case_bool_decide as Hin; simpl.
  - by left.
  - right. split_and!; [done|done|].
    by destruct (callVerify (innerBlk child) vm) as [[err|] vm'].
Qed.

(** What a verification of a post-fork child does to the log of the
    wrapped chain's [Verify] and to the set of verified inner blocks. *)
Lemma verifyPostForkChild_effect b child vm :
  ∃ extra,
    verifyCalls ((verifyPostForkChild b child vm).2) = verifyCalls vm ++ extra ∧
    (length extra ≤ 1)%nat ∧
    Tree vm ⊆ Tree ((verifyPostForkChild b child vm).2) ∧
    (blk_ID (innerBlk child) ∈ Tree vm → extra = []) ∧
    ((verifyPostForkChild b child vm).1 = None →
     blk_ID (innerBlk child) ∈ Tree ((verifyPostForkChild b child vm).2)).
Proof.
  destruct (verifyPostForkChild_cases b child vm)
    as [(err & -> & _)|[(_ & Hin & ->)|(_ & Hnin & ->)]].
  - exists []. simpl. rewrite app_nil_r.
    split_and!; [done|lia|done|done|done].
  - exists []. simpl. rewrite app_nil_r.
    split_and!; [done|lia|done|done|done].
  - exists [blk_ID (innerBlk child)].
    destruct (callVerify_calls (innerBlk child) vm) as (Hcalls & Htree & _).
    destruct ((callVerify (innerBlk child) vm).1) as [err|]; simpl.
    + rewrite Hcalls, Htree. split_and!; [done|simpl; lia|done|done|done].
    + rewrite Hcalls, Htree.
      split_and!; [done|simpl; lia|apply union_subseteq_r|done|].
      intros _. apply elem_of_union_l. by apply elem_of_singleton.
Qed.

(** C9: the verification of the inner block is idempotent. If the inner
    block of the child is already in the set of verified inner blocks, the
    wrapped chain's [Verify] is not called and, the other checks passing,
    the verification succeeds. If it is not, the other checks pass and
    [Verify] succeeds, then [Verify] was called once and the inner block
    is in the set afterwards. And verifying a second child that wraps the
    same inner block, when the block was verified before or by the first
    verification, calls [Verify] at most once in total: not at all when it
    was verified before. *)
Theorem verifyPostForkChild_inner_idempotent b child vm :
  (blk_ID (innerBlk child) ∈ Tree vm →
     verifyCalls ((verifyPostForkChild b child vm).2) = verifyCalls vm ∧
     (checks_pass b child vm → (verifyPostForkChild b child vm).1 = None)) ∧
  ((blk_ID (innerBlk child) ∉ Tree vm) →
     checks_pass b child vm →
     (blk_Verify (innerBlk child) (inner vm)).1 = None →
     (verifyPostForkChild b child vm).1 = None ∧
     blk_ID (innerBlk child) ∈ Tree ((verifyPostForkChild b child vm).2) ∧
     verifyCalls ((verifyPostForkChild b child vm).2)
     = verifyCalls vm ++ [blk_ID (innerBlk child)]) ∧
  (∀ b' child',
     innerBlk child' = innerBlk child →
     blk_ID (innerBlk child) ∈ Tree vm ∨ (verifyPostForkChild b child vm).1 = None →
     ∃ extra,
       verifyCalls ((verifyPostForkChild b' child' ((verifyPostForkChild b child vm).2)).2)
       = verifyCalls vm ++ extra ∧
       (length extra ≤ 1)%nat ∧
       (blk_ID (innerBlk child) ∈ Tree vm → extra = [])).
Proof.
  split_and!.
  - intros Hin.
    destruct (verifyPostForkChild_cases b child vm)
      as [(err & Heq & Hfail)|[(_ & _ & Heq)|(_ & Hnin & _)]]; [| |done].
    + by rewrite Heq.
    + by rewrite Heq.
  - intros Hnin Hpass Hverify.
    destruct (verifyPostForkChild_cases b child vm)
      as [(err & _ & Hfail)|[(_ & Hin & _)|(_ & _ & Heq)]]; [done|done|].
    destruct (callVerify_calls (innerBlk child) vm) as (Hcalls & Htree & Herr).
    rewrite Heq, Herr, Hverify. simpl. rewrite Hcalls, Htree.
    split_and!; [done| |done].
    apply elem_of_union_l. by apply elem_of_singleton.
  - intros b' child' Hsame Hverified.
    destruct (verifyPostForkChild_effect b child vm)
      as (extra1 & Hcalls1 & Hlen1 & Hsub1 & Hnil1 & Hadd1).
    destruct (verifyPostForkChild_effect b' child' ((verifyPostForkChild b child vm).2))
      as (extra2 & Hcalls2 & _ & _ & Hnil2 & _).
    rewrite Hsame in Hnil2.
    assert (extra2 = []) as ->.
    { apply Hnil2. destruct Hverified as [Hin|Hok]; [by apply Hsub1|by apply Hadd1]. }
    exists extra1. rewrite Hcalls2, Hcalls1, app_nil_r.
    split_and!; [done|done|done].
Qed.
End Facts.

(** On a chain past its activation time the first post-fork child of the
    pre-fork block is accepted: the wrapped chain verified its inner block,
    which is now in the set, and the child is in the index. *)
Example verifyPostForkChild_accepts :
  let r := verifyPostForkChild 10 neverOracle {| pre_Block := parentBlk |} childA (vmAt 50) in
  r.1 = None ∧ verifyCalls (r.2) = [2] ∧ inner (r.2) = 1%nat ∧
  Tree_Contains (r.2) innerChild = true ∧
  verifiedBlocks (r.2) !! 10 = Some childA.
Proof. by vm_compute. Qed.

Lemma verifyPostForkChild_before_activation_witness :
  (verifyPostForkChild 10 neverOracle {| pre_Block := parentBlk |} childA (vmAt 200)).1 ≠ None ∧
  (verifyPostForkChild 10 neverOracle {| pre_Block := parentBlk |} childA (vmAt 200)).2
  = vmAt 200 ∧
  (neverOracle parentBlk (inner (vmAt 200)) = None →
   verifyIsPreForkBlock {| pre_Block := parentBlk |} (vmAt 200) = None →
   (∃ h, GetCurrentHeight (vmAt 200) = inr h ∧ pfb_PChainHeight childA ≤ h) →
   minimumPChainHeight (vmAt 200) ≤ pfb_PChainHeight childA →
   blk_Parent (innerBlk childA) = blk_ID parentBlk →
   (verifyPostForkChild 10 neverOracle {| pre_Block := parentBlk |} childA (vmAt 200)).1
   = Some errProposersNotActivated).
Proof.
  apply (verifyPostForkChild_before_activation 10 neverOracle
           {| pre_Block := parentBlk |} childA (vmAt 200)).
  simpl. lia.
Defined.

(** The two children [childA] and [childB] wrap the same inner block: on a
    chain past its activation time both verifications succeed and the
    wrapped chain's [Verify] ran once. *)
Lemma verifyPostForkChild_inner_idempotent_witness :
  ∃ extra,
    verifyCalls
      ((verifyPostForkChild 10 neverOracle {| pre_Block := parentBlk |} childB
          ((verifyPostForkChild 10 neverOracle {| pre_Block := parentBlk |} childA
              (vmAt 50)).2)).2)
    = verifyCalls (vmAt 50) ++ extra ∧
    (length extra ≤ 1)%nat ∧
    (blk_ID (innerBlk childA) ∈ Tree (vmAt 50) → extra = []).
Proof.
  apply (proj2 (proj2 (verifyPostForkChild_inner_idempotent 10 neverOracle
                         {| pre_Block := parentBlk |} childA (vmAt 50)))
           {| pre_Block := parentBlk |} childB); [reflexivity|].
  right. by vm_compute.
Defined.

End ProposerVMFacts.


(** * Further properties of the windower *)
Module WindowerExtra.
Import Windower WindowerFacts.

(** ** How the walk ends *)

Lemma walk_stops validators validatorID pre index post d :
  Forall (passes validators validatorID) pre →
  stops validators validatorID index →
  walk validators validatorID (pre ++ index :: post) (to_int64 d)
  = Returns (to_int64 (d + Z.of_nat (length pre) * windowDuration)) None.
Proof.
  intros Hpre (Hi & v & Hv & Hid). rewrite walk_passes by done.
  cbn [walk]. rewrite decide_False by lia. by rewrite Hv, decide_True.
Qed.

Lemma walk_panics validators validatorID pre index post d :
  Forall (passes validators validatorID) pre →
  ¬ (0 ≤ index < Z.of_nat (length validators)) →
  walk validators validatorID (pre ++ index :: post) (to_int64 d) = Panics.
Proof.
  intros Hpre Hout. rewrite walk_passes by done. cbn [walk].
  case_decide; [done|].
  destruct (validators !! Z.to_nat index) as [v|] eqn:Hv; [|done].
  apply lookup_lt_Some in Hv. lia.
Qed.

(** The walk ends in one of three ways: at the first index that belongs to
    the validator, at the end of the sequence, or in a panic at the first
    index out of range. *)
Lemma walk_cases validators validatorID indices :
  (∃ pre index post, indices = pre ++ index :: post ∧
     Forall (passes validators validatorID) pre ∧
     stops validators validatorID index) ∨
  Forall (passes validators validatorID) indices ∨
  (∃ pre index post, indices = pre ++ index :: post ∧
     Forall (passes validators validatorID) pre ∧
     ¬ (0 ≤ index < Z.of_nat (length validators))).
Proof.
  induction indices as [|i indices IH]; [by right; left|].
  destruct (decide (0 ≤ i < Z.of_nat (length validators))) as [Hi|Hi].
  - destruct (lookup_lt_is_Some_2 validators (Z.to_nat i)) as [v Hv]; [lia|].
    destruct (decide (id v = validatorID)) as [Hid|Hid].
    + left. exists [], i, indices. split_and!; [done|done|].
      split; [lia|]. by exists v.
    + assert (passes validators validatorID i) as Hp.
      { split; [lia|]. by exists v. }
      destruct IH as [(pre & j & post & -> & Hpre & Hj)|[Hall|(pre & j & post & -> & Hpre & Hj)]].
      * left. exists (i :: pre), j, post. split_and!; [done|by constructor|done].
      * right; left. by constructor.
      * right; right. exists (i :: pre), j, post. split_and!; [done|by constructor|done].
  - right; right. by exists [], i, indices.
Qed.

Lemma walk_no_error validators validatorID indices d delay err :
  walk validators validatorID indices d ≠ Returns delay (Some err).
Proof.
  revert d. induction indices as [|i indices IH]; intros d; cbn [walk]; [done|].
  case_decide; [done|]. destruct (validators !! Z.to_nat i); [|done].
  case_decide; [done|]. apply IH.
Qed.

Lemma stops_not_passes validators validatorID index :
  stops validators validatorID index → ¬ passes validators validatorID index.
Proof. intros (_ & v & Hv & Hid) (_ & v' & Hv' & Hne). congruence. Qed.

(** The three ways, for a walk that starts with no delay. *)
Lemma walk_outcome validators validatorID indices :
  (∃ pre index post, indices = pre ++ index :: post ∧
     Forall (passes validators validatorID) pre ∧
     stops validators validatorID index ∧
     walk validators validatorID indices 0
     = Returns (to_int64 (Z.of_nat (length pre) * windowDuration)) None) ∨
  (Forall (passes validators validatorID) indices ∧
     walk validators validatorID indices 0
     = Returns (to_int64 (Z.of_nat (length indices) * windowDuration)) None) ∨
  (∃ pre index post, indices = pre ++ index :: post ∧
     Forall (passes validators validatorID) pre ∧
     ¬ (0 ≤ index < Z.of_nat (length validators)) ∧
     walk validators validatorID indices 0 = Panics).
Proof.
  destruct (walk_cases validators validatorID indices)
    as [(pre & i & post & -> & Hpre & Hi)|[Hall|(pre & i & post & -> & Hpre & Hi)]].
  - left. exists pre, i, post. split_and!; [done..|].
    pose proof (walk_stops validators validatorID pre i post 0 Hpre Hi) as Hw.
    by rewrite Z.add_0_l in Hw.
  - right; left. split; [done|].
    pose proof (walk_passes validators validatorID indices [] 0 Hall) as Hw.
    by rewrite app_nil_r, Z.add_0_l in Hw.
  - right; right. exists pre, i, post. split_and!; [done..|].
    exact (walk_panics validators validatorID pre i post 0 Hpre Hi).
Qed.

Lemma windows_fit (n len : nat) :
  (n ≤ len)%nat → Z.of_nat len * windowDuration ≤ MaxInt64 →
  to_int64 (Z.of_nat n * windowDuration) = Z.of_nat n * windowDuration.
Proof.
  intros Hn Hfit. assert (0 < windowDuration) by done.
  apply to_int64_small. split; [unfold MaxInt64 in *; nia|nia].
Qed.

Section Sampled.
Context {St : Type} `{!WeightedWithoutReplacement St}.

(** A run on a snapshot that got as far as the walk. *)
Lemma Delay_walk (w : windower St) range chainHeight pChainHeight validatorID m indices :
  valid_range range →
  vm w pChainHeight (subnetID w) = inr m →
  uint64_weights m →
  totalWeight m ≤ MaxUint64 →
  (Initialize (sampler w) (weight <$> canonical m)).2 = None →
  draw St (sampler w) (weight <$> canonical m) (to_int64 chainHeight)
    (numToSample (totalWeight m)) = inr indices →
  result (Delay w range chainHeight pChainHeight validatorID)
  = walk (canonical m) validatorID indices 0.
Proof.
  intros Hr Hvm Hm Htot Hinit Hdraw.
  rewrite Delay_any_range; [|done|by intros m'; rewrite Hvm; intros [= <-]].
  by apply Delay_sampled.
Qed.

(** A run that returned without error got as far as the walk. *)
Lemma Delay_returned (w : windower St) range chainHeight pChainHeight validatorID m
    indices delay :
  valid_range range →
  vm w pChainHeight (subnetID w) = inr m →
  uint64_weights m →
  draw St (sampler w) (weight <$> canonical m) (to_int64 chainHeight)
    (numToSample (totalWeight m)) = inr indices →
  result (Delay w range chainHeight pChainHeight validatorID) = Returns delay None →
  walk (canonical m) validatorID indices 0 = Returns delay None.
Proof.
  intros Hr Hvm Hm Hdraw.
  rewrite Delay_any_range; [|done|by intros m'; rewrite Hvm; intros [= <-]].
  rewrite (Delay_result w _ _ _ m) by done.
  case_decide; [|done]. destruct (Initialize _ _).2; [done|]. by rewrite Hdraw.
Qed.

(** X1: the walk stops at the first sampled index that belongs to
    [validatorID]: when the indices before it belong to other validators,
    [Delay] returns one window of 3 seconds for each of them, with no
    error, as long as the sum fits a [time.Duration]. *)
Theorem Delay_stops_at_first (w : windower St) range chainHeight pChainHeight validatorID m
    pre index post :
  valid_range range →
  vm w pChainHeight (subnetID w) = inr m →
  uint64_weights m →
  totalWeight m ≤ MaxUint64 →
  (Initialize (sampler w) (weight <$> canonical m)).2 = None →
  draw St (sampler w) (weight <$> canonical m) (to_int64 chainHeight)
    (numToSample (totalWeight m)) = inr (pre ++ index :: post) →
  Forall (passes (canonical m) validatorID) pre →
  stops (canonical m) validatorID index →
  Z.of_nat (length pre) * windowDuration ≤ MaxInt64 →
  result (Delay w range chainHeight pChainHeight validatorID)
  = Returns (Z.of_nat (length pre) * windowDuration) None.
Proof.
  intros Hr Hvm Hm Htot Hinit Hdraw Hpre Hstop Hfit.
  rewrite (Delay_walk w range _ _ _ m (pre ++ index :: post)) by done.
  pose proof (walk_stops (canonical m) validatorID pre index post 0 Hpre Hstop) as Hw.
  rewrite Z.add_0_l in Hw. change (to_int64 0) with 0 in Hw.
  rewrite Hw. f_equal. by apply (windows_fit _ (length pre)).
Qed.

(** X2: an error return carries a zero duration and is the error of the
    validator state, of the checked summation, of [Initialize] or of
    [Sample], whichever fails first; the walk itself never fails. *)
Theorem Delay_error_iff (w : windower St) range chainHeight pChainHeight validatorID
    delay err :
  valid_range range →
  (∀ m, vm w pChainHeight (subnetID w) = inr m → uint64_weights m) →
  result (Delay w range chainHeight pChainHeight validatorID) = Returns delay (Some err) ↔
  delay = 0 ∧
  match vm w pChainHeight (subnetID w) with
  | inl e => err = e
  | inr m =>
      (MaxUint64 < totalWeight m ∧ err = errOverflow) ∨
      (totalWeight m ≤ MaxUint64 ∧
       ((Initialize (sampler w) (weight <$> canonical m)).2 = Some err ∨
        ((Initialize (sampler w) (weight <$> canonical m)).2 = None ∧
         draw St (sampler w) (weight <$> canonical m) (to_int64 chainHeight)
           (numToSample (totalWeight m)) = inl err)))
  end.
Proof.
  intros Hr Hm. rewrite Delay_any_range by done.
  destruct (vm w pChainHeight (subnetID w)) as [e|m] eqn:Hvm.
  - unfold Delay. rewrite Hvm. simpl. split; [by intros [= <- <-]|by intros [-> ->]].
  - rewrite (Delay_result w _ _ _ m) by auto. case_decide as Htot.
    + destruct (Initialize _ _).2 as [e|].
      * split; [intros [= <- <-]; split; [done|]; right; split; [done|by left]|].
        intros [-> [[? _]|[_ [[= ->]|[[=] _]]]]]; [lia|done].
      * destruct (draw _ _ _ _ _) as [e|indices].
        -- split; [intros [= <- <-]; split; [done|]; right; split; [done|by right]|].
           intros [-> [[? _]|[_ [[=]|[_ [= ->]]]]]]; [lia|done].
        -- split; [by intros ?%walk_no_error|].
           intros [_ [[? _]|[_ [[=]|[_ [=]]]]]]. lia.
    + split; [intros [= <- <-]; split; [done|]; left; split; [lia|done]|].
      intros [-> [[_ ->]|[? _]]]; [done|lia].
Qed.

(** Two walks over the same indices that end with the same delay, for two
    validators, both ran to the end of the sequence. *)
Lemma walk_shared_delay validators v1 v2 indices delay :
  v1 ≠ v2 →
  Z.of_nat (length indices) * windowDuration ≤ MaxInt64 →
  walk validators v1 indices 0 = Returns delay None →
  walk validators v2 indices 0 = Returns delay None →
  delay = Z.of_nat (length indices) * windowDuration ∧
  Forall (passes validators v1) indices ∧ Forall (passes validators v2) indices.
Proof.
  intros Hne Hfit H1 H2. assert (0 < windowDuration) as HwD by done.
  destruct (walk_outcome validators v1 indices)
    as [(pre1 & i1 & post1 & E1 & Hpre1 & Hi1 & W1)|[[Hall1 W1]|(? & ? & ? & _ & _ & _ & W1)]];
    [| |congruence];
  (destruct (walk_outcome validators v2 indices)
    as [(pre2 & i2 & post2 & E2 & Hpre2 & Hi2 & W2)|[[Hall2 W2]|(? & ? & ? & _ & _ & _ & W2)]];
    [| |congruence]);
  rewrite W1 in H1; rewrite W2 in H2; injection H1 as H1; injection H2 as H2.
  - exfalso.
    rewrite (windows_fit _ (length indices)) in H1 by (done || (rewrite E1, length_app; lia)).
    rewrite (windows_fit _ (length indices)) in H2 by (done || (rewrite E2, length_app; lia)).
    assert (length pre1 = length pre2) as Hlen by nia.
    rewrite E1 in E2. apply app_inj_1 in E2 as [_ [= -> _]]; [|done].
    destruct Hi1 as (_ & u & Hu & <-), Hi2 as (_ & u' & Hu' & <-). congruence.
  - exfalso.
    rewrite (windows_fit _ (length indices)) in H1 by (done || (rewrite E1, length_app; lia)).
    rewrite (windows_fit _ (length indices)) in H2 by done.
    assert (length pre1 = length indices) as Hlen by nia.
    rewrite E1, length_app in Hlen. simpl in Hlen. lia.
  - exfalso.
    rewrite (windows_fit _ (length indices)) in H1 by done.
    rewrite (windows_fit _ (length indices)) in H2 by (done || (rewrite E2, length_app; lia)).
    assert (length pre2 = length indices) as Hlen by nia.
    rewrite E2, length_app in Hlen. simpl in Hlen. lia.
  - rewrite (windows_fit _ (length indices)) in H1 by done. by split_and!.
Qed.

(** X3: two validators are given the same delay by the same run only when
    neither of them was sampled: the delay is then one window for every
    sampled index. *)
Theorem Delay_shared_delay (w : windower St) range chainHeight pChainHeight v1 v2 m
    indices delay :
  valid_range range →
  vm w pChainHeight (subnetID w) = inr m →
  uint64_weights m →
  draw St (sampler w) (weight <$> canonical m) (to_int64 chainHeight)
    (numToSample (totalWeight m)) = inr indices →
  Z.of_nat (length indices) * windowDuration ≤ MaxInt64 →
  v1 ≠ v2 →
  result (Delay w range chainHeight pChainHeight v1) = Returns delay None →
  result (Delay w range chainHeight pChainHeight v2) = Returns delay None →
  delay = Z.of_nat (length indices) * windowDuration ∧
  Forall (passes (canonical m) v1) indices ∧ Forall (passes (canonical m) v2) indices.
Proof.
  intros Hr Hvm Hm Hdraw Hfit Hne H1 H2.
  apply (Delay_returned w range _ _ _ m indices) in H1; [|done..].
  apply (Delay_returned w range _ _ _ m indices) in H2; [|done..].
  by apply walk_shared_delay.
Qed.

(** X4: on the empty validator set the sampler is asked for 5 indices over
    no weight at all; [Delay] returns a zero delay when it answers with no
    index, and panics on the first index it answers with, whatever it is. *)
Theorem Delay_empty_snapshot (w : windower St) range chainHeight pChainHeight validatorID :
  valid_range range →
  vm w pChainHeight (subnetID w) = inr ∅ →
  result (Delay w range chainHeight pChainHeight validatorID)
  = match (Initialize (sampler w) []).2 with
    | Some err => Returns 0 (Some err)
    | None =>
        match draw St (sampler w) [] (to_int64 chainHeight) 5 with
        | inl err => Returns 0 (Some err)
        | inr [] => Returns 0 None
        | inr (_ :: _) => Panics
        end
    end.
Proof.
  intros Hr Hvm.
  assert (uint64_weights ∅) as Hm by apply map_Forall_empty.
  rewrite Delay_any_range; [|done|by intros m'; rewrite Hvm; intros [= <-]].
  rewrite (Delay_result w _ _ _ ∅) by done.
  assert (canonical ∅ = []) as -> by (unfold canonical; by rewrite map_to_list_empty).
  assert (totalWeight ∅ = 0) as -> by (unfold totalWeight; by rewrite map_to_list_empty).
  rewrite decide_True by done. change (numToSample 0) with 5.
  destruct (Initialize _ _).2; [done|].
  destruct (draw _ _ _ _ _) as [err|[|i indices]]; [done|done|].
  cbn [walk fmap list_fmap]. case_decide; [done|]. by rewrite lookup_nil.
Qed.

(** X5: the calls of a run on its sampler follow one protocol. Either the
    sampler is not touched (and is left as it was), or [Initialize] failed
    and nothing else was called, or [Initialize] succeeded and [Seed], with
    the chain height converted to [int64], and one [Sample] followed. *)
Theorem Delay_call_protocol (w : windower St) range chainHeight pChainHeight validatorID :
  (calls (Delay w range chainHeight pChainHeight validatorID) = [] ∧
   sampler_after (Delay w range chainHeight pChainHeight validatorID) = sampler w ∧
   ∃ err, result (Delay w range chainHeight pChainHeight validatorID)
          = Returns 0 (Some err)) ∨
  (∃ weights err,
     calls (Delay w range chainHeight pChainHeight validatorID)
     = [CallInitialize weights] ∧
     Initialize (sampler w) weights
     = (sampler_after (Delay w range chainHeight pChainHeight validatorID), Some err) ∧
     result (Delay w range chainHeight pChainHeight validatorID) = Returns 0 (Some err)) ∨
  (∃ weights count,
     calls (Delay w range chainHeight pChainHeight validatorID)
     = [CallInitialize weights; CallSeed (to_int64 chainHeight); CallSample count] ∧
     (Initialize (sampler w) weights).2 = None ∧
     sampler_after (Delay w range chainHeight pChainHeight validatorID)
     = (Sample (Seed (Initialize (sampler w) weights).1 (to_int64 chainHeight)) count).1).
Proof.
  unfold Delay.
  destruct (vm w pChainHeight (subnetID w)) as [err|m]; [left; by eauto|].
  destruct (collect (range m) [] 0) as [err|[validators total]]; [left; by eauto|].
  destruct (Initialize (sampler w) (weight <$> sortValidators validators))
    as [s1 [err|]] eqn:Hinit.
  - right; left. exists (weight <$> sortValidators validators), err. by rewrite Hinit.
  - right; right. exists (weight <$> sortValidators validators), (numToSample total).
    rewrite Hinit. simpl. by destruct (Sample _ _) as [s3 [err|indices]].
Qed.
End Sampled.

(** ** The ordering handed to the sampler *)

Lemma sorted_strictly (l : list validatorData) :
  StronglySorted validatorLe l → NoDup (id <$> l) → StronglySorted Z.lt (id <$> l).
Proof.
  induction 1 as [|x l Hsorted IH Hall]; csimpl; intros Hnd; [constructor|].
  apply NoDup_cons in Hnd as [Hx Hnd]. constructor; [by apply IH|].
  apply Forall_fmap, Forall_forall. intros y Hy. simpl.
  rewrite Forall_forall in Hall. specialize (Hall y Hy). unfold validatorLe in Hall.
  assert (id x ≠ id y) by (intros Heq; apply Hx; rewrite Heq; by apply list_elem_of_fmap_2).
  lia.
Qed.

Lemma canonical_strictly_sorted m : StronglySorted Z.lt (id <$> canonical m).
Proof.
  apply sorted_strictly; [apply sortValidators_sorted|].
  rewrite canonical_Permutation, id_toData. apply NoDup_fst_map_to_list.
Qed.

(** X6: whatever the order in which the map is ranged, the weights that
    [Delay] hands to the sampler are those of the snapshot's entries taken
    in strictly ascending order of identity: position [i] of the weights is
    the weight of the validator with the [i]-th smallest identity. *)
Theorem Delay_weights_by_identity {St : Type} `{!WeightedWithoutReplacement St}
    (w : windower St) range chainHeight pChainHeight validatorID m weights :
  valid_range range →
  vm w pChainHeight (subnetID w) = inr m →
  uint64_weights m →
  CallInitialize weights ∈ calls (Delay w range chainHeight pChainHeight validatorID) →
  ∃ validators,
    weights = weight <$> validators ∧
    StronglySorted Z.lt (id <$> validators) ∧
    (∀ k v, {| id := k; weight := v |} ∈ validators ↔ m !! k = Some v).
Proof.
  intros Hr Hvm Hm Hin.
  rewrite Delay_any_range in Hin; [|done|by intros m'; rewrite Hvm; intros [= <-]].
  rewrite (Delay_calls w _ _ _ m) in Hin by done.
  exists (canonical m). split_and!.
  - case_decide; [|by apply not_elem_of_nil in Hin].
    destruct (Initialize _ _).2;
      repeat (apply elem_of_cons in Hin as [Hin|Hin]; [try discriminate Hin|]);
      try (by apply not_elem_of_nil in Hin); by injection Hin.
  - apply canonical_strictly_sorted.
  - intros k v. by rewrite elem_of_canonical.
Qed.

(** ** Under the sampler's contract *)

Section Contract.
Context {St : Type} `{!WeightedWithoutReplacement St}.
Hypothesis sampler_without_replacement : without_replacement St.

(** What the sampler answers on a snapshot whose total weight fits a signed
    64-bit integer: every index is in range, its validator has a positive
    weight, and every validator of positive weight has an index. *)
Lemma sampled_indices (s : St) m seed :
  uint64_weights m → totalWeight m ≤ MaxInt64 →
  (Initialize s (weight <$> canonical m)).2 = None ∧
  ∃ indices,
    draw St s (weight <$> canonical m) seed (numToSample (totalWeight m)) = inr indices ∧
    Z.of_nat (length indices) = totalWeight m ∧
    (∀ i, i ∈ indices →
       0 ≤ i ∧ ∃ v, canonical m !! Z.to_nat i = Some v ∧ 0 < weight v) ∧
    (∀ k v, m !! k = Some v → 0 < v → Exists (stops (canonical m) k) indices).
Proof.
  intros Hm Htot.
  destruct (Delay_draws_all sampler_without_replacement s m seed Hm Htot)
    as (Hinit & indices & Hdraw & Hperm & Hlen).
  split; [done|]. exists indices. split_and!; [done|done| |].
  - intros i Hi. rewrite Hperm in Hi.
    apply elem_of_units in Hi as (n & w' & -> & Hn & Hpos).
    split; [lia|]. rewrite Nat2Z.id. rewrite list_lookup_fmap in Hn.
    destruct (canonical m !! n) as [v|]; [|done]. exists v.
    split; [done|]. by injection Hn as ->.
  - intros k v Hk Hv.
    assert ({| id := k; weight := v |} ∈ canonical m) as Hin by by apply elem_of_canonical.
    apply list_elem_of_lookup in Hin as [n Hn].
    apply Exists_exists. exists (Z.of_nat n). split.
    + rewrite Hperm. apply elem_of_units. exists n, v.
      split_and!; [done| |done]. by rewrite list_lookup_fmap, Hn.
    + split; [lia|]. rewrite Nat2Z.id. by eexists.
Qed.

(** X7: with a sampler that keeps its contract, [Delay] never panics on a
    snapshot whose total weight fits a signed 64-bit integer: no sampled
    index is out of the validators' range, for any [validatorID]. *)
Theorem Delay_no_panic (w : windower St) range chainHeight pChainHeight validatorID m :
  valid_range range →
  vm w pChainHeight (subnetID w) = inr m →
  uint64_weights m →
  totalWeight m ≤ MaxInt64 →
  result (Delay w range chainHeight pChainHeight validatorID) ≠ Panics.
Proof.
  intros Hr Hvm Hm Htot.
  destruct (sampled_indices (sampler w) m (to_int64 chainHeight) Hm Htot)
    as (Hinit & indices & Hdraw & _ & Hrange & _).
  rewrite (Delay_walk w range _ _ _ m indices);
    [|done|done|done|unfold MaxUint64, MaxInt64 in *; lia|done|done].
  destruct (walk_outcome (canonical m) validatorID indices)
    as [(? & ? & ? & _ & _ & _ & ->)|[[_ ->]|(pre & i & post & -> & _ & Hout & _)]];
    [done|done|].
  exfalso. apply Hout.
  destruct (Hrange i) as [Hi (v & Hv & _)]; [apply elem_of_app; right; by left|].
  apply lookup_lt_Some in Hv. lia.
Qed.

(** X8: a validator that is in the snapshot with weight zero is never
    sampled: like an absent identity it is given one window for every
    sampled index, that is [totalWeight] windows. *)
Theorem Delay_zero_weight (w : windower St) range chainHeight pChainHeight validatorID m :
  valid_range range →
  vm w pChainHeight (subnetID w) = inr m →
  uint64_weights m →
  m !! validatorID = Some 0 →
  totalWeight m * windowDuration ≤ MaxInt64 →
  result (Delay w range chainHeight pChainHeight validatorID)
  = Returns (totalWeight m * windowDuration) None.
Proof.
  intros Hr Hvm Hm Hzero Hfit. assert (0 < windowDuration) as HwD by done.
  pose proof (canonical_weights_nonneg m Hm) as Hnn.
  pose proof (sumZ_nonneg _ Hnn) as Hsum. rewrite canonical_weights in Hsum.
  assert (totalWeight m ≤ MaxInt64) as Htot by nia.
  destruct (sampled_indices (sampler w) m (to_int64 chainHeight) Hm Htot)
    as (Hinit & indices & Hdraw & Hlen & Hrange & _).
  rewrite (Delay_walk w range _ _ _ m indices);
    [|done|done|done|unfold MaxUint64, MaxInt64 in *; lia|done|done].
  assert (Forall (passes (canonical m) validatorID) indices) as Hpass.
  { apply Forall_forall. intros i Hi.
    destruct (Hrange i Hi) as [Hi0 (v & Hv & Hpos)]. split; [done|].
    exists v. split; [done|]. intros Hid.
    assert (v ∈ canonical m) as Hel by by eapply list_elem_of_lookup_2.
    apply elem_of_canonical in Hel. rewrite Hid, Hzero in Hel.
    injection Hel as Hel. lia. }
  pose proof (walk_passes (canonical m) validatorID indices [] 0 Hpass) as Hwalk.
  change (to_int64 0) with 0 in Hwalk.
  rewrite app_nil_r, Z.add_0_l in Hwalk. cbn [walk] in Hwalk.
  rewrite Hwalk, Hlen, to_int64_small; [done|]. unfold MaxInt64 in *. lia.
Qed.

(** X9: on a snapshot with a positive total weight some validator of
    positive weight may propose at once: its delay is zero. *)
Theorem Delay_someone_first (w : windower St) range chainHeight pChainHeight m :
  valid_range range →
  vm w pChainHeight (subnetID w) = inr m →
  uint64_weights m →
  0 < totalWeight m ≤ MaxInt64 →
  ∃ validatorID v,
    m !! validatorID = Some v ∧ 0 < v ∧
    result (Delay w range chainHeight pChainHeight validatorID) = Returns 0 None.
Proof.
  intros Hr Hvm Hm [Hpos Htot].
  destruct (sampled_indices (sampler w) m (to_int64 chainHeight) Hm Htot)
    as (Hinit & indices & Hdraw & Hlen & Hrange & _).
  destruct indices as [|i indices]; [simpl in Hlen; lia|].
  destruct (Hrange i) as [Hi (v & Hv & Hw)]; [by left|].
  exists (id v), (weight v). split_and!; [|done|].
  - apply elem_of_canonical. by eapply list_elem_of_lookup_2.
  - rewrite (Delay_walk w range _ _ _ m (i :: indices));
      [|done|done|done|unfold MaxUint64, MaxInt64 in *; lia|done|done].
    cbn [walk]. rewrite decide_False by lia. by rewrite Hv, decide_True.
Qed.

(** X10: two different validators of positive weight are never given the
    same delay by the same run, as long as the total weight, counted in
    windows, fits a [time.Duration]. *)
Theorem Delay_distinct_delays (w : windower St) range chainHeight pChainHeight v1 v2 m
    w1 w2 :
  valid_range range →
  vm w pChainHeight (subnetID w) = inr m →
  uint64_weights m →
  m !! v1 = Some w1 → 0 < w1 →
  m !! v2 = Some w2 → 0 < w2 →
  v1 ≠ v2 →
  totalWeight m * windowDuration ≤ MaxInt64 →
  result (Delay w range chainHeight pChainHeight v1)
  ≠ result (Delay w range chainHeight pChainHeight v2).
Proof.
  intros Hr Hvm Hm Hv1 Hw1 Hv2 Hw2 Hne Hfit Heq.
  assert (0 < windowDuration) as HwD by done.
  pose proof (canonical_weights_nonneg m Hm) as Hnn.
  pose proof (sumZ_nonneg _ Hnn) as Hsum. rewrite canonical_weights in Hsum.
  assert (totalWeight m ≤ MaxInt64) as Htot by nia.
  destruct (sampled_indices (sampler w) m (to_int64 chainHeight) Hm Htot)
    as (Hinit & indices & Hdraw & Hlen & Hrange & Hsampled).
  rewrite !(Delay_walk w range _ _ _ m indices) in Heq;
    [|done|done|done|unfold MaxUint64, MaxInt64 in *; lia|done|done
     |done|done|done|unfold MaxUint64, MaxInt64 in *; lia|done|done].
  destruct (walk_outcome (canonical m) v1 indices)
    as [(pre & i & post & _ & _ & _ & W1)|[[Hall _]|(pre & i & post & -> & _ & Hout & _)]].
  - destruct (walk_shared_delay (canonical m) v1 v2 indices
                (to_int64 (Z.of_nat (length pre) * windowDuration)) Hne)
      as (_ & Hall & _); [lia|exact W1|by rewrite <- Heq|].
    specialize (Hsampled v1 w1 Hv1 Hw1). apply Exists_exists in Hsampled as (j & Hj & Hs).
    rewrite Forall_forall in Hall. by eapply stops_not_passes, Hall.
  - specialize (Hsampled v1 w1 Hv1 Hw1). apply Exists_exists in Hsampled as (j & Hj & Hs).
    rewrite Forall_forall in Hall. by eapply stops_not_passes, Hall.
  - apply Hout.
    destruct (Hrange i) as [Hi (v & Hv & _)]; [apply elem_of_app; right; by left|].
    apply lookup_lt_Some in Hv. lia.
Qed.
End Contract.

(** ** The extra properties on concrete runs *)

Lemma uint64_weights_2_0 : uint64_weights {[1 := 2; 2 := 0]}.
Proof. apply map_Forall_insert_2; [done|]. by apply map_Forall_singleton. Qed.

Lemma Delay_stops_at_first_witness :
  result (Delay (fixed_windower {[1 := 1; 2 := 1; 3 := 1]}) map_to_list 42 100 3)
  = Returns (Z.of_nat (length [0; 1]) * windowDuration) None.
Proof.
  apply (Delay_stops_at_first (fixed_windower {[1 := 1; 2 := 1; 3 := 1]}) map_to_list
           42 100 3 {[1 := 1; 2 := 1; 3 := 1]} [0; 1] 2 []).
  - apply map_to_list_valid.
  - reflexivity.
  - apply uint64_weights_1_1_1.
  - by vm_compute.
  - reflexivity.
  - by vm_compute.
  - repeat (apply Forall_cons; split;
              [split; [done|eexists; split; [reflexivity|done]]|]).
    apply Forall_nil_2.
  - split; [done|]. eexists. split; [reflexivity|done].
  - by vm_compute.
Defined.

Lemma Delay_error_iff_witness :
  result (Delay (fixed_windower {[1 := MaxUint64; 2 := 1]}) map_to_list 7 0 2)
  = Returns 0 (Some errOverflow) ↔
  0 = 0 ∧
  match vm (fixed_windower {[1 := MaxUint64; 2 := 1]}) 0
          (subnetID (fixed_windower {[1 := MaxUint64; 2 := 1]})) with
  | inl e => errOverflow = e
  | inr m =>
      (MaxUint64 < totalWeight m ∧ errOverflow = errOverflow) ∨
      (totalWeight m ≤ MaxUint64 ∧
       ((Initialize (sampler (fixed_windower {[1 := MaxUint64; 2 := 1]}))
           (weight <$> canonical m)).2 = Some errOverflow ∨
        ((Initialize (sampler (fixed_windower {[1 := MaxUint64; 2 := 1]}))
            (weight <$> canonical m)).2 = None ∧
         draw rotatingSampler (sampler (fixed_windower {[1 := MaxUint64; 2 := 1]}))
           (weight <$> canonical m) (to_int64 7) (numToSample (totalWeight m))
         = inl errOverflow)))
  end.
Proof.
  apply (Delay_error_iff (fixed_windower {[1 := MaxUint64; 2 := 1]}) map_to_list 7 0 2
           0 errOverflow).
  - apply map_to_list_valid.
  - intros m [= <-]. apply uint64_weights_max_1.
Defined.

Lemma Delay_shared_delay_witness :
  9 * Second = Z.of_nat (length [0; 1; 2]) * windowDuration ∧
  Forall (passes (canonical {[1 := 1; 2 := 1; 3 := 1]}) 4) [0; 1; 2] ∧
  Forall (passes (canonical {[1 := 1; 2 := 1; 3 := 1]}) 5) [0; 1; 2].
Proof.
  apply (Delay_shared_delay (fixed_windower {[1 := 1; 2 := 1; 3 := 1]}) map_to_list
           42 100 4 5 {[1 := 1; 2 := 1; 3 := 1]} [0; 1; 2] (9 * Second)).
  - apply map_to_list_valid.
  - reflexivity.
  - apply uint64_weights_1_1_1.
  - reflexivity.
  - by vm_compute.
  - lia.
  - by vm_compute.
  - by vm_compute.
Defined.

Lemma Delay_empty_snapshot_witness :
  result (Delay (fixed_windower ∅) map_to_list 42 100 1)
  = match (Initialize (sampler (fixed_windower ∅)) []).2 with
    | Some err => Returns 0 (Some err)
    | None =>
        match draw rotatingSampler (sampler (fixed_windower ∅)) [] (to_int64 42) 5 with
        | inl err => Returns 0 (Some err)
        | inr [] => Returns 0 None
        | inr (_ :: _) => Panics
        end
    end.
Proof.
  apply (Delay_empty_snapshot (fixed_windower ∅) map_to_list 42 100 1).
  - apply map_to_list_valid.
  - reflexivity.
Defined.

Lemma Delay_weights_by_identity_witness :
  ∃ validators,
    [2; 1] = weight <$> validators ∧
    StronglySorted Z.lt (id <$> validators) ∧
    (∀ k v, {| id := k; weight := v |} ∈ validators ↔
            ({[1 := 2; 2 := 1]} : gmap Z Z) !! k = Some v).
Proof.
  apply (Delay_weights_by_identity (fixed_windower {[1 := 2; 2 := 1]})
           (λ m, reverse (map_to_list m)) 7 0 2 {[1 := 2; 2 := 1]} [2; 1]).
  - apply reverse_range_valid.
  - reflexivity.
  - apply uint64_weights_2_1.
  - vm_compute. by left.
Defined.

Lemma Delay_no_panic_witness :
  result (Delay (fixed_windower {[1 := 2; 2 := 0]}) map_to_list 7 0 2) ≠ Panics.
Proof.
  apply (Delay_no_panic rotatingSampler_without_replacement
           (fixed_windower {[1 := 2; 2 := 0]}) map_to_list 7 0 2 {[1 := 2; 2 := 0]}).
  - apply map_to_list_valid.
  - reflexivity.
  - apply uint64_weights_2_0.
  - by vm_compute.
Defined.

Lemma Delay_zero_weight_witness :
  result (Delay (fixed_windower {[1 := 2; 2 := 0]}) map_to_list 7 0 2)
  = Returns (totalWeight {[1 := 2; 2 := 0]} * windowDuration) None.
Proof.
  apply (Delay_zero_weight rotatingSampler_without_replacement
           (fixed_windower {[1 := 2; 2 := 0]}) map_to_list 7 0 2 {[1 := 2; 2 := 0]}).
  - apply map_to_list_valid.
  - reflexivity.
  - apply uint64_weights_2_0.
  - reflexivity.
  - by vm_compute.
Defined.

Lemma Delay_someone_first_witness :
  ∃ validatorID v,
    ({[1 := 2; 2 := 1]} : gmap Z Z) !! validatorID = Some v ∧ 0 < v ∧
    result (Delay (fixed_windower {[1 := 2; 2 := 1]}) map_to_list 7 0 validatorID)
    = Returns 0 None.
Proof.
  apply (Delay_someone_first rotatingSampler_without_replacement
           (fixed_windower {[1 := 2; 2 := 1]}) map_to_list 7 0 {[1 := 2; 2 := 1]}).
  - apply map_to_list_valid.
  - reflexivity.
  - apply uint64_weights_2_1.
  - by vm_compute.
Defined.

Lemma Delay_distinct_delays_witness :
  result (Delay (fixed_windower {[1 := 2; 2 := 1]}) map_to_list 7 0 1)
  ≠ result (Delay (fixed_windower {[1 := 2; 2 := 1]}) map_to_list 7 0 2).
Proof.
  apply (Delay_distinct_delays rotatingSampler_without_replacement
           (fixed_windower {[1 := 2; 2 := 1]}) map_to_list 7 0 1 2 {[1 := 2; 2 := 1]} 2 1).
  - apply map_to_list_valid.
  - reflexivity.
  - apply uint64_weights_2_1.
  - reflexivity.
  - lia.
  - reflexivity.
  - lia.
  - lia.
  - by vm_compute.
Defined.

End WindowerExtra.


(** * Further properties of the pre-fork block *)
Module ProposerVMExtra.
Import ProposerVM ProposerVMFacts.

Section Verification.
Context {Inner : Type}.
Variable maxSkew : Z.
Variable verifyIsOracleBlock : Block Inner → Inner → option error.
Variable verifyIsNotOracleBlock : Block Inner → Inner → option error.

Abbreviation verifyPostForkChild := (verifyPostForkChild maxSkew verifyIsNotOracleBlock).
Abbreviation verifyPreForkChild := (verifyPreForkChild verifyIsOracleBlock).
Abbreviation checks_pass := (checks_pass maxSkew verifyIsNotOracleBlock).

Implicit Types (b : preForkBlock Inner) (child : postForkBlock Inner) (vm : VM Inner).

(** When a post-fork child is accepted. *)
Lemma accepted_iff b child vm :
  (verifyPostForkChild b child vm).1 = None ↔
  checks_pass b child vm ∧
  (blk_ID (innerBlk child) ∈ Tree vm ∨ (blk_Verify (innerBlk child) (inner vm)).1 = None).
Proof.
  destruct (verifyPostForkChild_cases maxSkew verifyIsNotOracleBlock b child vm)
    as [(err & -> & Hfail)|[(Hpass & Hin & ->)|(Hpass & Hnin & ->)]].
  - split; [done|]. by intros [? _].
  - split; [by auto|done].
  - destruct (callVerify_calls (innerBlk child) vm) as (_ & _ & Herr). rewrite Herr.
    destruct (blk_Verify (innerBlk child) (inner vm)).1 as [err|]; simpl.
    + split; [done|]. by intros [_ [?|?]].
    + split; [by auto|done].
Qed.

(** X11: a pre-fork block accepts a post-fork child exactly when the nine
    checks that come before the inner verification pass and the inner block
    either is already in the set of verified inner blocks or passes the
    wrapped chain's [Verify] now. *)
Theorem verifyPostForkChild_accepts_iff b child vm :
  (verifyPostForkChild b child vm).1 = None ↔
  checks_pass b child vm ∧
  (blk_ID (innerBlk child) ∈ Tree vm ∨ (blk_Verify (innerBlk child) (inner vm)).1 = None).
Proof. apply accepted_iff. Qed.

(** X12: the two insertions happen exactly on success. An accepted child is
    in the index of verified blocks under its own identity and its inner
    block is in the set of verified inner blocks; a rejected child changes
    neither. In both cases the configuration and what the collaborators
    answer are left as they were. *)
Theorem verifyPostForkChild_insertions b child vm :
  ((verifyPostForkChild b child vm).1 = None →
     Tree ((verifyPostForkChild b child vm).2) = {[blk_ID (innerBlk child)]} ∪ Tree vm ∧
     verifiedBlocks ((verifyPostForkChild b child vm).2)
     = <[pfb_ID child := child]> (verifiedBlocks vm)) ∧
  ((verifyPostForkChild b child vm).1 ≠ None →
     Tree ((verifyPostForkChild b child vm).2) = Tree vm ∧
     verifiedBlocks ((verifyPostForkChild b child vm).2) = verifiedBlocks vm) ∧
  activationTime ((verifyPostForkChild b child vm).2) = activationTime vm ∧
  minimumPChainHeight ((verifyPostForkChild b child vm).2) = minimumPChainHeight vm ∧
  chainID ((verifyPostForkChild b child vm).2) = chainID vm ∧
  clock ((verifyPostForkChild b child vm).2) = clock vm ∧
  GetCurrentHeight ((verifyPostForkChild b child vm).2) = GetCurrentHeight vm ∧
  GetLastAccepted ((verifyPostForkChild b child vm).2) = GetLastAccepted vm.
Proof.
  destruct (verifyPostForkChild_cases maxSkew verifyIsNotOracleBlock b child vm)
    as [(err & -> & _)|[(_ & Hin & ->)|(_ & _ & ->)]].
  - by split_and!.
  - simpl. split_and!; try done. intros _. split; [|done].
    apply leibniz_equiv. intros x. rewrite elem_of_union, elem_of_singleton.
    split; [by right|]. by intros [->|?].
  - unfold callVerify. destruct (blk_Verify (innerBlk child) (inner vm)) as [[err|] inner'];
      simpl; by split_and!.
Qed.

(** X13: the named rejection reasons, in the order of the checks. With a
    non-oracle, legitimate pre-fork parent: a failed height lookup is
    returned as it is; a child height above the current height is
    [errPChainHeightNotReached]; below the minimum, [errPChainHeightTooLow];
    a broken link to the parent, [errInnerParentMismatch]; past activation, a
    child timestamp before the parent's is [errTimeNotMonotonic] and one
    beyond now plus [maxSkew] is [errTimeTooAdvanced]. None of them changes
    the state. *)
Theorem verifyPostForkChild_rejections b child vm :
  verifyIsNotOracleBlock (pre_Block b) (inner vm) = None →
  verifyIsPreForkBlock b vm = None →
  match GetCurrentHeight vm with
  | inl err => verifyPostForkChild b child vm = (Some err, vm)
  | inr h =>
      (h < pfb_PChainHeight child →
         verifyPostForkChild b child vm = (Some errPChainHeightNotReached, vm)) ∧
      (pfb_PChainHeight child ≤ h →
       pfb_PChainHeight child < minimumPChainHeight vm →
         verifyPostForkChild b child vm = (Some errPChainHeightTooLow, vm)) ∧
      (pfb_PChainHeight child ≤ h →
       minimumPChainHeight vm ≤ pfb_PChainHeight child →
         (blk_Parent (innerBlk child) ≠ blk_ID (pre_Block b) →
            verifyPostForkChild b child vm = (Some errInnerParentMismatch, vm)) ∧
         (blk_Parent (innerBlk child) = blk_ID (pre_Block b) →
          activationTime vm ≤ blk_Timestamp (pre_Block b) →
            (pfb_Timestamp child < blk_Timestamp (pre_Block b) →
               verifyPostForkChild b child vm = (Some errTimeNotMonotonic, vm)) ∧
            (blk_Timestamp (pre_Block b) ≤ pfb_Timestamp child →
             clock vm + maxSkew < pfb_Timestamp child →
               verifyPostForkChild b child vm = (Some errTimeTooAdvanced, vm))))
  end.
Proof.
  intros Horacle Hpre. unfold ProposerVM.verifyPostForkChild. rewrite Horacle, Hpre.
  destruct (GetCurrentHeight vm) as [err|h]; [done|].
  split_and!.
  - intros ?. by rewrite decide_True by lia.
  - intros ??. rewrite decide_False by lia. by rewrite decide_True by lia.
  - intros ??. rewrite !(decide_False (P := _ > _)), !(decide_False (P := _ < minimumPChainHeight _)) by lia.
    split.
    + intros ?. by rewrite decide_True.
    + intros Hlink ?. rewrite (decide_False (P := _ ≠ _)) by (by intros ?).
      rewrite (decide_False (P := _ < activationTime _)) by lia. split.
      * intros ?. by rewrite decide_True by lia.
      * intros ??. rewrite (decide_False (P := pfb_Timestamp _ < _)) by lia.
        by rewrite decide_True by lia.
Qed.

(** X14: after a post-fork child was accepted, its inner block, as long as
    it is not marked accepted, no longer counts as a pre-fork block: the
    pre-fork check answers [errUnexpectedBlockType] for it, so taken as a
    pre-fork parent it rejects every post-fork child and leaves the state
    as it is. (Nothing is said of the parent that accepted the child: it
    goes on accepting post-fork children.) *)
Theorem accepted_inner_not_pre_fork b child vm vm' :
  verifyPostForkChild b child vm = (None, vm') →
  blk_Status (innerBlk child) (inner vm') ≠ Accepted →
  verifyIsPreForkBlock {| pre_Block := innerBlk child |} vm' = Some errUnexpectedBlockType ∧
  ∀ child',
    (verifyPostForkChild {| pre_Block := innerBlk child |} child' vm').1 ≠ None ∧
    (verifyPostForkChild {| pre_Block := innerBlk child |} child' vm').2 = vm'.
Proof.
  intros Hok Hstatus.
  destruct (verifyPostForkChild_effect maxSkew verifyIsNotOracleBlock b child vm)
    as (_ & _ & _ & _ & _ & Hin).
  rewrite Hok in Hin. specialize (Hin eq_refl). simpl in Hin.
  assert (verifyIsPreForkBlock {| pre_Block := innerBlk child |} vm'
          = Some errUnexpectedBlockType) as Hpre.
  { unfold verifyIsPreForkBlock. simpl. rewrite decide_False by done.
    unfold Tree_Contains. by rewrite bool_decide_eq_true_2. }
  split; [done|]. intros child'. unfold ProposerVM.verifyPostForkChild.
  destruct (verifyIsNotOracleBlock _ _); [done|]. by rewrite Hpre.
Qed.

(** X15: a pre-fork child is handed to the wrapped chain's [Verify], and
    the result of that call is the result of the verification, when the
    parent's timestamp is before the activation time or the parent is an
    oracle block that still is a legitimate pre-fork block. Otherwise the
    child is rejected and nothing is called or changed. In no case does the
    verification of a pre-fork child touch the set of verified inner blocks
    or the index of verified blocks. *)
Theorem verifyPreForkChild_legal (b child : preForkBlock Inner) vm :
  ((blk_Timestamp (pre_Block b) < activationTime vm ∨
    (verifyIsOracleBlock (pre_Block b) (inner vm) = None ∧ verifyIsPreForkBlock b vm = None)) →
     verifyPreForkChild b child vm = callVerify (pre_Block child) vm) ∧
  (¬ (blk_Timestamp (pre_Block b) < activationTime vm ∨
      (verifyIsOracleBlock (pre_Block b) (inner vm) = None ∧
       verifyIsPreForkBlock b vm = None)) →
     (verifyPreForkChild b child vm).1 ≠ None ∧ (verifyPreForkChild b child vm).2 = vm) ∧
  Tree ((verifyPreForkChild b child vm).2) = Tree vm ∧
  verifiedBlocks ((verifyPreForkChild b child vm).2) = verifiedBlocks vm.
Proof.
  unfold ProposerVM.verifyPreForkChild.
  assert (∀ blk, Tree ((callVerify blk vm).2) = Tree vm ∧
                 verifiedBlocks ((callVerify blk vm).2) = verifiedBlocks vm) as Hframe.
  { intros blk. unfold callVerify. by destruct (blk_Verify blk (inner vm)). }
  case_decide as Hts.
  - destruct (verifyIsOracleBlock _ _) as [err|] eqn:Horacle.
    + split_and!; [|done|done|done]. intros [?|[? _]]; [lia|done].
    + destruct (verifyIsPreForkBlock b vm) as [err|] eqn:Hpre.
      * split_and!; [|done|done|done]. intros [?|[_ ?]]; [lia|done].
      * split_and!; [done| |apply Hframe|apply Hframe]. intros Hnot. exfalso. by apply Hnot; right.
  - split_and!; [done| |apply Hframe|apply Hframe]. intros Hnot. exfalso. by apply Hnot; left.
Qed.

(** X16: a block passes the pre-fork check exactly when it is marked
    accepted and no post-fork block was accepted yet (the lookup of the last
    accepted block answers [ErrNotFound]), or it is not marked accepted and
    its inner block is not in the set of verified inner blocks. The check
    fails with [errUnexpectedBlockType] or with the lookup's own error. *)
Theorem verifyIsPreForkBlock_iff b vm :
  (verifyIsPreForkBlock b vm = None ↔
     (blk_Status (pre_Block b) (inner vm) = Accepted ∧
      GetLastAccepted vm = inl ErrNotFound) ∨
     (blk_Status (pre_Block b) (inner vm) ≠ Accepted ∧
      (blk_ID (pre_Block b) ∉ Tree vm))) ∧
  (∀ err, verifyIsPreForkBlock b vm = Some err →
     err = errUnexpectedBlockType ∨
     (blk_Status (pre_Block b) (inner vm) = Accepted ∧
      GetLastAccepted vm = inl err ∧ err ≠ ErrNotFound)).
Proof.
  unfold verifyIsPreForkBlock, Tree_Contains. case_decide as Hst.
  - destruct (GetLastAccepted vm) as [e|lastID].
    + case_decide as He.
      * split; [|intros err [= <-]; by right].
        split; [done|]. intros [[_ [= ->]]|[? _]]; done.
      * subst e. split; [|done].
        split; [by left|done].
    + split; [|intros err [= <-]; by left].
      split; [done|]. by intros [[_ ?]|[? _]].
  - case_bool_decide as Hin.
    + split; [|intros err [= <-]; by left].
      split; [done|]. by intros [[? _]|[_ ?]].
    + split; [|done]. split; [by right|done].
Qed.

(** ** Child construction *)

Variable Bytes : Block Inner → list Z.
Variable BuildUnsigned : ID → Z → Z → list Z → error + SignedBlock.
Variable storePostForkBlock : postForkBlock Inner → VM Inner → option error * VM Inner.

Abbreviation buildChild := (buildChild Bytes BuildUnsigned storePostForkBlock).

Lemma Truncate_Second t : t - Second < Truncate t Second ≤ t ∧ Truncate t Second `mod` Second = 0.
Proof.
  unfold Truncate. rewrite decide_False by (unfold Second; lia).
  pose proof (Z.mod_pos_bound t Second) as Hmod.
  split; [unfold Second in *; lia|].
  rewrite Zminus_mod, Z.mod_mod, Z.sub_diag by (unfold Second; lia). done.
Qed.

(** What [buildChild] returns, by cases. *)
Lemma buildChild_cases b (innerBlock : Block Inner) vm :
  (blk_Timestamp (pre_Block b) < activationTime vm ∧
   buildChild b innerBlock vm = (Some (BuiltPreFork {| pre_Block := innerBlock |}), None, vm)) ∨
  (activationTime vm ≤ blk_Timestamp (pre_Block b) ∧
   ∃ err, buildChild b innerBlock vm = (None, Some err, vm) ∧
     (GetCurrentHeight vm = inl err ∨
      ∃ h, GetCurrentHeight vm = inr h ∧
           BuildUnsigned (blk_ID (pre_Block b))
             (Z.max (Truncate (clock vm) Second) (blk_Timestamp (pre_Block b))) h
             (Bytes innerBlock) = inl err)) ∨
  (activationTime vm ≤ blk_Timestamp (pre_Block b) ∧
   ∃ h statelessBlock,
     GetCurrentHeight vm = inr h ∧
     BuildUnsigned (blk_ID (pre_Block b))
       (Z.max (Truncate (clock vm) Second) (blk_Timestamp (pre_Block b))) h
       (Bytes innerBlock) = inr statelessBlock ∧
     buildChild b innerBlock vm
     = (Some (BuiltPostFork (postForkBlock_of statelessBlock innerBlock)),
        (storePostForkBlock (postForkBlock_of statelessBlock innerBlock) vm).1,
        (storePostForkBlock (postForkBlock_of statelessBlock innerBlock) vm).2)).
Proof.
  unfold ProposerVM.buildChild. case_decide as Hts; [by left|]. right.
  assert ((if decide (Truncate (clock vm) Second < blk_Timestamp (pre_Block b))
           then blk_Timestamp (pre_Block b) else Truncate (clock vm) Second)
          = Z.max (Truncate (clock vm) Second) (blk_Timestamp (pre_Block b))) as ->
    by (case_decide; lia).
  destruct (GetCurrentHeight vm) as [err|h]; [left; split; [lia|]; by eauto|].
  destruct (BuildUnsigned _ _ _ _) as [err|statelessBlock] eqn:Hbuild.
  - left. split; [lia|]. exists err. split; [done|]. right. by eauto.
  - right. split; [lia|]. exists h, statelessBlock. split_and!; [done|done|].
    by destruct (storePostForkBlock _ vm).
Qed.

(** X17: before the activation time the child that is built is a pre-fork
    block around the inner block, with no error, no change of state and no
    call to a collaborator; verified as a child of its parent it is handed
    to the wrapped chain's [Verify] and nothing else decides. *)
Theorem buildChild_before_activation b (innerBlock : Block Inner) vm :
  blk_Timestamp (pre_Block b) < activationTime vm →
  buildChild b innerBlock vm = (Some (BuiltPreFork {| pre_Block := innerBlock |}), None, vm) ∧
  verifyPreForkChild b {| pre_Block := innerBlock |} vm = callVerify innerBlock vm.
Proof.
  intros Hts. split.
  - destruct (buildChild_cases b innerBlock vm) as [[_ ->]|[[? _]|[? _]]]; [done|lia|lia].
  - unfold ProposerVM.verifyPreForkChild. by rewrite decide_False by lia.
Qed.

(** X18: the post-fork block that is built declares the current P-chain
    height and wraps the inner block; its timestamp is the later of the
    parent's timestamp and the current time cut to whole seconds, so it is
    never before the parent's timestamp and never after the later of the
    parent's timestamp and the current time; and the error returned with it
    is the one of the block store. *)
Theorem buildChild_post_fork b (innerBlock : Block Inner) vm blk err vm' :
  builds_as_asked BuildUnsigned →
  buildChild b innerBlock vm = (Some (BuiltPostFork blk), err, vm') →
  activationTime vm ≤ blk_Timestamp (pre_Block b) ∧
  innerBlk blk = innerBlock ∧
  GetCurrentHeight vm = inr (pfb_PChainHeight blk) ∧
  pfb_Timestamp blk = Z.max (Truncate (clock vm) Second) (blk_Timestamp (pre_Block b)) ∧
  blk_Timestamp (pre_Block b) ≤ pfb_Timestamp blk ≤ Z.max (clock vm) (blk_Timestamp (pre_Block b)) ∧
  storePostForkBlock blk vm = (err, vm').
Proof.
  intros Hasked Hbuilt. pose proof (Truncate_Second (clock vm)) as [Htr _].
  destruct (buildChild_cases b innerBlock vm)
    as [[_ Heq]|[(_ & e & Heq & _)|(Hts & h & sb & Hh & Hsb & Heq)]];
    rewrite Heq in Hbuilt; [done|done|].
  injection Hbuilt as <- <- <-.
  destruct (Hasked _ _ _ _ _ Hsb) as (_ & Htime & Hheight). simpl.
  rewrite Htime, Hheight. split_and!; [done|done|done|done|lia|lia|].
  by destruct (storePostForkBlock _ vm).
Qed.

(** X19: when [buildChild] returns no block it returns the error of the
    height lookup or of the assembly of the unsigned block, the parent is at
    or past the activation time, nothing was stored and the state is as it
    was. *)
Theorem buildChild_nothing_built b (innerBlock : Block Inner) vm :
  (buildChild b innerBlock vm).1.1 = None →
  activationTime vm ≤ blk_Timestamp (pre_Block b) ∧
  ∃ err, buildChild b innerBlock vm = (None, Some err, vm) ∧
    (GetCurrentHeight vm = inl err ∨
     ∃ h, GetCurrentHeight vm = inr h ∧
          BuildUnsigned (blk_ID (pre_Block b))
            (Z.max (Truncate (clock vm) Second) (blk_Timestamp (pre_Block b))) h
            (Bytes innerBlock) = inl err).
Proof.
  intros Hnone.
  destruct (buildChild_cases b innerBlock vm)
    as [[_ Heq]|[(Hts & e & Heq & Hwhy)|(_ & h & sb & _ & _ & Heq)]];
    rewrite Heq in Hnone; [done| |done].
  split; [done|]. by exists e.
Qed.

(** X20: a post-fork block that [buildChild] has just built meets, by
    construction, the height bound from above, the activation check and the
    timestamp checks of [verifyPostForkChild] (the parent itself not being
    ahead of the clock by more than [maxSkew]). Verified in the state it was
    built from, it is accepted exactly when the parent is a non-oracle,
    legitimate pre-fork block, the current height is not below the minimum,
    the inner block names the parent, the block verifies as unsigned and the
    inner block is verified. *)
Theorem buildChild_then_verify b (innerBlock : Block Inner) vm blk err vm' :
  builds_as_asked BuildUnsigned →
  0 ≤ maxSkew →
  blk_Timestamp (pre_Block b) ≤ clock vm + maxSkew →
  buildChild b innerBlock vm = (Some (BuiltPostFork blk), err, vm') →
  (verifyPostForkChild b blk vm).1 = None ↔
  verifyIsNotOracleBlock (pre_Block b) (inner vm) = None ∧
  verifyIsPreForkBlock b vm = None ∧
  minimumPChainHeight vm ≤ pfb_PChainHeight blk ∧
  blk_Parent innerBlock = blk_ID (pre_Block b) ∧
  pfb_SignedBlock_Verify blk false (chainID vm) = None ∧
  (blk_ID innerBlock ∈ Tree vm ∨ (blk_Verify innerBlock (inner vm)).1 = None).
Proof.
  intros Hasked Hskew Hparent Hbuilt.
  pose proof (Truncate_Second (clock vm)) as [Htr _].
  destruct (buildChild_cases b innerBlock vm)
    as [[_ Heq]|[(_ & e & Heq & _)|(Hts & h & sb & Hh & Hsb & Heq)]];
    rewrite Heq in Hbuilt; [done|done|].
  injection Hbuilt as <- <- <-.
  destruct (Hasked _ _ _ _ _ Hsb) as (_ & Htime & Hheight).
  rewrite accepted_iff. unfold ProposerVM.checks_pass. simpl.
  rewrite Htime, Hheight, Hh. split.
  - intros ((? & ? & _ & ? & ? & _ & _ & _ & ?) & ?). by split_and!.
  - intros (? & ? & ? & ? & ? & ?). split; [|done].
    split_and!; try done; try lia. by exists h.
Qed.
End Verification.

(** ** The extra properties on the small chain *)

(** One rejected child for each named reason, on the small chain (current
    height 7, minimum height 3, parent 1 at time 100, clock at 120, skew
    10): a height of 9, a height of 2, an inner block of another parent, a
    timestamp of 90 and a timestamp of 131. *)
Lemma verifyPostForkChild_rejections_witness :
  verifyPostForkChild 10 neverOracle {| pre_Block := parentBlk |}
    (childWith 9 110 innerChild) (vmAt 50)
  = (Some errPChainHeightNotReached, vmAt 50) ∧
  verifyPostForkChild 10 neverOracle {| pre_Block := parentBlk |}
    (childWith 2 110 innerChild) (vmAt 50)
  = (Some errPChainHeightTooLow, vmAt 50) ∧
  verifyPostForkChild 10 neverOracle {| pre_Block := parentBlk |}
    (childWith 5 110 strayInner) (vmAt 50)
  = (Some errInnerParentMismatch, vmAt 50) ∧
  verifyPostForkChild 10 neverOracle {| pre_Block := parentBlk |}
    (childWith 5 90 innerChild) (vmAt 50)
  = (Some errTimeNotMonotonic, vmAt 50) ∧
  verifyPostForkChild 10 neverOracle {| pre_Block := parentBlk |}
    (childWith 5 131 innerChild) (vmAt 50)
  = (Some errTimeTooAdvanced, vmAt 50).
Proof.
  split_and!.
  - destruct (verifyPostForkChild_rejections 10 neverOracle {| pre_Block := parentBlk |}
                (childWith 9 110 innerChild) (vmAt 50) eq_refl eq_refl) as (Hhigh & _ & _).
    apply Hhigh. simpl. lia.
  - destruct (verifyPostForkChild_rejections 10 neverOracle {| pre_Block := parentBlk |}
                (childWith 2 110 innerChild) (vmAt 50) eq_refl eq_refl) as (_ & Hlow & _).
    apply Hlow; simpl; lia.
  - destruct (verifyPostForkChild_rejections 10 neverOracle {| pre_Block := parentBlk |}
                (childWith 5 110 strayInner) (vmAt 50) eq_refl eq_refl) as (_ & _ & Hrest).
    destruct Hrest as [Hlink _]; [simpl; lia..|]. apply Hlink. simpl. lia.
  - destruct (verifyPostForkChild_rejections 10 neverOracle {| pre_Block := parentBlk |}
                (childWith 5 90 innerChild) (vmAt 50) eq_refl eq_refl) as (_ & _ & Hrest).
    destruct Hrest as [_ Htimes]; [simpl; lia..|].
    destruct Htimes as [Hearly _]; [reflexivity|simpl; lia|]. apply Hearly. simpl. lia.
  - destruct (verifyPostForkChild_rejections 10 neverOracle {| pre_Block := parentBlk |}
                (childWith 5 131 innerChild) (vmAt 50) eq_refl eq_refl) as (_ & _ & Hrest).
    destruct Hrest as [_ Htimes]; [simpl; lia..|].
    destruct Htimes as [_ Hlate]; [reflexivity|simpl; lia|]. apply Hlate; simpl; lia.
Defined.

(** The parent that accepted [childA] accepts [childB] after it, and
    [childA] once more. *)
Example parent_accepts_again :
  let verify := verifyPostForkChild 10 neverOracle {| pre_Block := parentBlk |} in
  let vm1 := (verify childA (vmAt 50)).2 in
  let vm2 := (verify childB vm1).2 in
  (verify childA (vmAt 50)).1 = None ∧ (verify childB vm1).1 = None ∧
  (verify childA vm2).1 = None.
Proof. by vm_compute. Qed.

Lemma accepted_inner_not_pre_fork_witness :
  verifyIsPreForkBlock {| pre_Block := innerChild |}
    ((verifyPostForkChild 10 neverOracle {| pre_Block := parentBlk |} childA (vmAt 50)).2)
  = Some errUnexpectedBlockType ∧
  ∀ child',
    (verifyPostForkChild 10 neverOracle {| pre_Block := innerChild |} child'
       ((verifyPostForkChild 10 neverOracle {| pre_Block := parentBlk |} childA (vmAt 50)).2)).1
    ≠ None ∧
    (verifyPostForkChild 10 neverOracle {| pre_Block := innerChild |} child'
       ((verifyPostForkChild 10 neverOracle {| pre_Block := parentBlk |} childA (vmAt 50)).2)).2
    = (verifyPostForkChild 10 neverOracle {| pre_Block := parentBlk |} childA (vmAt 50)).2.
Proof.
  apply (accepted_inner_not_pre_fork 10 neverOracle {| pre_Block := parentBlk |} childA (vmAt 50)).
  - by vm_compute.
  - by vm_compute.
Defined.

Lemma plainBuild_as_asked : builds_as_asked plainBuild.
Proof. by intros parentID timestamp pChainHeight bytes sb [= <-]. Qed.

Lemma buildChild_before_activation_witness :
  buildChild noBytes plainBuild noStore {| pre_Block := parentBlk |} innerChild (vmNow 200 103)
  = (Some (BuiltPreFork {| pre_Block := innerChild |}), None, vmNow 200 103) ∧
  verifyPreForkChild alwaysOracle {| pre_Block := parentBlk |} {| pre_Block := innerChild |}
    (vmNow 200 103)
  = callVerify innerChild (vmNow 200 103).
Proof.
  apply (buildChild_before_activation alwaysOracle noBytes plainBuild noStore
           {| pre_Block := parentBlk |} innerChild (vmNow 200 103)).
  simpl. lia.
Defined.

(** The clock is at 3.5 seconds, the parent's timestamp at 100 ns: the block
    that is built carries the clock's time cut to 3 seconds. *)
Lemma buildChild_post_fork_witness :
  activationTime (vmNow 50 3500000000) ≤ blk_Timestamp parentBlk ∧
  innerBlk builtChild = innerChild ∧
  GetCurrentHeight (vmNow 50 3500000000) = inr (pfb_PChainHeight builtChild) ∧
  pfb_Timestamp builtChild
  = Z.max (Truncate (clock (vmNow 50 3500000000)) Second) (blk_Timestamp parentBlk) ∧
  blk_Timestamp parentBlk ≤ pfb_Timestamp builtChild
    ≤ Z.max (clock (vmNow 50 3500000000)) (blk_Timestamp parentBlk) ∧
  noStore builtChild (vmNow 50 3500000000) = (None, vmNow 50 3500000000).
Proof.
  apply (buildChild_post_fork noBytes plainBuild noStore {| pre_Block := parentBlk |}
           innerChild (vmNow 50 3500000000) builtChild None (vmNow 50 3500000000)
           plainBuild_as_asked).
  reflexivity.
Defined.

Lemma buildChild_then_verify_witness :
  (verifyPostForkChild 10 neverOracle {| pre_Block := parentBlk |} builtChild
     (vmNow 50 3500000000)).1 = None ↔
  neverOracle parentBlk (inner (vmNow 50 3500000000)) = None ∧
  verifyIsPreForkBlock {| pre_Block := parentBlk |} (vmNow 50 3500000000) = None ∧
  minimumPChainHeight (vmNow 50 3500000000) ≤ pfb_PChainHeight builtChild ∧
  blk_Parent innerChild = blk_ID parentBlk ∧
  pfb_SignedBlock_Verify builtChild false (chainID (vmNow 50 3500000000)) = None ∧
  (blk_ID innerChild ∈ Tree (vmNow 50 3500000000) ∨
   (blk_Verify innerChild (inner (vmNow 50 3500000000))).1 = None).
Proof.
  apply (buildChild_then_verify 10 neverOracle noBytes plainBuild noStore
           {| pre_Block := parentBlk |} innerChild (vmNow 50 3500000000) builtChild None
           (vmNow 50 3500000000) plainBuild_as_asked).
  - lia.
  - by vm_compute.
  - reflexivity.
Defined.

Lemma buildChild_nothing_built_witness :
  activationTime (vmNow 50 103) ≤ blk_Timestamp parentBlk ∧
  ∃ err,
    buildChild noBytes failingBuild noStore {| pre_Block := parentBlk |} innerChild
      (vmNow 50 103)
    = (None, Some err, vmNow 50 103) ∧
    (GetCurrentHeight (vmNow 50 103) = inl err ∨
     ∃ h, GetCurrentHeight (vmNow 50 103) = inr h ∧
          failingBuild (blk_ID parentBlk)
            (Z.max (Truncate (clock (vmNow 50 103)) Second) (blk_Timestamp parentBlk)) h
            (noBytes innerChild) = inl err).
Proof.
  apply (buildChild_nothing_built noBytes failingBuild noStore
           {| pre_Block := parentBlk |} innerChild (vmNow 50 103)).
  reflexivity.
Defined.

End ProposerVMExtra.
